(** * Editor state core of react-three-editor

    A shallow embedding of [packages/editor/src/editable/Editor.tsx]:
    the element registry kept in the zustand store, the structural
    operations [appendElement] / [removeElement], the selection model,
    the settings accessors built on the panel stores, and the
    diff-persistence loop [save].

    JavaScript objects are shared and mutated in place, so the model is a
    heap: element objects and registry mappings live at locations, and
    the store state refers to the current mapping by its location. *)

From stdpp Require Import gmap strings list fin_maps pretty.

Open Scope string_scope.
Open Scope list_scope.

(** ** Heap objects *)

Abbreviation loc := positive (only parsing).

(** The own properties of an [EditableElement] instance that
    [Editor.tsx] reads or writes.  [parentId] is [string | null];
    [index] and [key] are [None] while the instance carries no such
    property. *)
Record EditableElement := mkElement {
  id : string;
  parentId : option string;
  childIds : list string;
  index : option string;
  key : option string
}.

(** Registry entries are [EditableElement] instances, or the bare object
    [{childIds: ...}] that [appendElement] makes out of [{}] when it is
    handed a parent id the registry does not know yet. *)
Inductive JSObject :=
  | Elem (e : EditableElement)
  | Plain (cs : list string).

Definition set_parentId (p : option string) (e : EditableElement) : EditableElement :=
  {| id := id e; parentId := p; childIds := childIds e;
     index := index e; key := key e |}.

Definition set_childIds (cs : list string) (e : EditableElement) : EditableElement :=
  {| id := id e; parentId := parentId e; childIds := cs;
     index := index e; key := key e |}.

Definition set_index (i : option string) (e : EditableElement) : EditableElement :=
  {| id := id e; parentId := parentId e; childIds := childIds e;
     index := i; key := key e |}.

(** [o.childIds] *)
Definition obj_childIds (o : JSObject) : list string :=
  match o with
  | Elem e => childIds e
  | Plain cs => cs
  end.

(** [o.childIds = cs] *)
Definition obj_set_childIds (cs : list string) (o : JSObject) : JSObject :=
  match o with
  | Elem e => Elem (set_childIds cs e)
  | Plain _ => Plain cs
  end.

(** [o.parentId]; a bare object has none ([undefined]). *)
Definition obj_parentId (o : JSObject) : option (option string) :=
  match o with
  | Elem e => Some (parentId e)
  | Plain _ => None
  end.

(** [Object.assign(element, src)]: every own property of [src] is copied
    over the one of [element]; [src = undefined] copies nothing. *)
Definition assign (element : EditableElement) (src : option JSObject) : EditableElement :=
  match src with
  | None => element
  | Some (Plain cs) => set_childIds cs element
  | Some (Elem s) =>
      {| id := id s; parentId := parentId s; childIds := childIds s;
         index := match index s with Some i => Some i | None => index element end;
         key := match key s with Some k => Some k | None => key element end |}
  end.

(** Modelled from the spec: the constructor of [EditableElement]
    ([./EditableElement], not part of this file).  A new element has the
    given id and parent link and an empty [childIds] sequence. *)
Definition new_EditableElement (i : string) (p : option string) : EditableElement :=
  {| id := i; parentId := p; childIds := []; index := None; key := None |}.

(** ** The store *)

(** [settingsPanel: string | StoreType]: a panel name or a panel handle. *)
Inductive PanelRef :=
  | PanelName (name : string)
  | PanelHandle (l : loc).

Record EditorStoreStateType := mkStore {
  selectedId : option string;
  selectedKey : option string;
  elements : loc;
  settingsPanel : PanelRef
}.

Definition set_elements (m : loc) (s : EditorStoreStateType) : EditorStoreStateType :=
  {| selectedId := selectedId s; selectedKey := selectedKey s;
     elements := m; settingsPanel := settingsPanel s |}.

Definition set_selectedId (i : option string) (s : EditorStoreStateType) : EditorStoreStateType :=
  {| selectedId := i; selectedKey := selectedKey s;
     elements := elements s; settingsPanel := settingsPanel s |}.

Definition set_selectedKey (k : option string) (s : EditorStoreStateType) : EditorStoreStateType :=
  {| selectedId := selectedId s; selectedKey := k;
     elements := elements s; settingsPanel := settingsPanel s |}.

(** The heap of element objects, the heap of registry mappings
    ([Record<string, EditableElement>] objects, holding references), and
    the current state of the zustand store.  [setState] always installs a
    new state object, so the state itself is kept by value. *)
Record World := mkWorld {
  objs : gmap loc JSObject;
  maps : gmap loc (gmap string loc);
  store : EditorStoreStateType
}.

(** [this.store.getState().elements] *)
Definition registry (w : World) : option (gmap string loc) :=
  maps w !! elements (store w).

(** The object an [element: EditableElement] argument refers to. *)
Definition element_at (h : gmap loc JSObject) (l : loc) : option EditableElement :=
  match h !! l with
  | Some (Elem e) => Some e
  | _ => None
  end.

(** The registry and the panel table are plain objects: a name that is
    not an own key is looked up on [Object.prototype], whose members
    these are. *)
Definition Object_prototype_members : list string :=
  [ "constructor"; "hasOwnProperty"; "isPrototypeOf"; "propertyIsEnumerable";
    "toLocaleString"; "toString"; "valueOf"; "__proto__";
    "__defineGetter__"; "__defineSetter__"; "__lookupGetter__"; "__lookupSetter__" ].

Definition proto_member (k : string) : bool :=
  bool_decide (k ∈ Object_prototype_members).

(** What [M[k]] evaluates to on a mapping object: the own entry, or the
    built-in inherited under that name, or [undefined] ([None]). *)
Inductive Resolved :=
  | OwnEntry (l : loc)
  | Inherited (member : string).

Definition lookup_prop (M : gmap string loc) (k : string) : option Resolved :=
  match M !! k with
  | Some l => Some (OwnEntry l)
  | None => if proto_member k then Some (Inherited k) else None
  end.

(** [M[k]] does not fall through to [Object.prototype]: [k] is an own
    key, or no built-in has that name. *)
Definition not_inherited (M : gmap string loc) (k : string) : Prop :=
  is_Some (M !! k) ∨ proto_member k = false.

(** The source of [Object.assign(element, M[k])], read through the heap:
    [Some None] copies nothing.  That is [undefined], and also a
    built-in inherited under [k], which has no enumerable property of
    its own as long as nothing was assigned to it. *)
Definition entry (h : gmap loc JSObject) (M : gmap string loc) (k : string)
  : option (option JSObject) :=
  match M !! k with
  | Some l => Some <$> h !! l
  | None => Some None
  end.

(** A [string | null] argument used as a condition: [null] and the empty
    string are falsy. *)
Definition truthy (p : option string) : option string :=
  match p with
  | Some s => if decide (s = "") then None else Some s
  | None => None
  end.

(** The parent id of an [appendElement] or [removeElement] call is not
    looked up on [Object.prototype]: it is falsy, a key of the registry,
    or no name of a built-in. *)
Definition parent_resolves (w : World) (p : option string) : Prop :=
  ∀ M s, registry w = Some M → truthy p = Some s → not_inherited M s.

(** [createEditorStore()] followed by the constructor's
    [this.root.index = ""]. *)
Definition root_element : EditableElement :=
  set_index (Some "") (new_EditableElement "root" None).

Definition createEditorStore : World :=
  {| objs := {[ 1%positive := Elem root_element ]};
     maps := {[ 1%positive := {[ "root" := 1%positive ]} ]};
     store := {| selectedId := None; selectedKey := None;
                 elements := 1%positive; settingsPanel := PanelName "scene" |} |}.

(** ** Element tree *)

(** [createElement(id, source, componentType, props)]: a new instance
    with a null parent, not registered anywhere. *)
Definition createElement (w : World) (i : string) : loc * World :=
  let l := fresh (dom (objs w)) in
  (l, {| objs := <[l := Elem (new_EditableElement i None)]> (objs w);
         maps := maps w; store := store w |}).

(** The branch [if (parentId)] of [appendElement].  When [parentId] is
    not a key, the parent is a new bare object [{childIds}].  For a
    name of [Object.prototype] the code takes the built-in in place of
    [{}], assigns [childIds] to it and registers it under [parentId];
    the built-in is shared with everything outside the editor, and the
    bare object stands for it here, with the [childIds] the built-in
    gets when nothing was assigned to it before.  The facts that say
    what such a parent object holds are stated for parent ids that are
    keys of the registry or name no built-in. *)
Definition append_under (w : World) (le : loc) (p : string) : option World :=
  e ← element_at (objs w) le;
  (* element.parentId = parentId *)
  let h1 := <[le := Elem (set_parentId (Some p) e)]> (objs w) in
  M ← registry w;
  (* parent = Object.assign(el.elements[parentId] ?? {},
                            {childIds: [...(childIds ?? []), element.id]}) *)
  '(lp, h2) ← match M !! p with
              | Some lp =>
                  po ← h1 !! lp;
                  Some (lp, <[lp := obj_set_childIds (obj_childIds po ++ [id e]) po]> h1)
              | None =>
                  let lp := fresh (dom h1) in
                  Some (lp, <[lp := Plain [id e]]> h1)
              end;
  (* newLement = Object.assign(element, el.elements[element.id]) *)
  e2 ← element_at h2 le;
  stale ← entry h2 M (id e2);
  let e3 := assign e2 stale in
  let h3 := <[le := Elem e3]> h2 in
  (* newLement.index = `${parent.childIds.length - 1}` *)
  po ← h3 !! lp;
  let e4 := set_index (Some (pretty (Z.of_nat (length (obj_childIds po)) - 1)%Z)) e3 in
  let h4 := <[le := Elem e4]> h3 in
  (* {...el.elements, [newLement.id]: newLement, [parentId]: parent} *)
  let lm := fresh (dom (maps w)) in
  Some {| objs := h4;
          maps := <[lm := <[p := lp]> (<[id e4 := le]> M)]> (maps w);
          store := set_elements lm (store w) |}.

(** The [else] branch of [appendElement]. *)
Definition append_top (w : World) (le : loc) : option World :=
  e ← element_at (objs w) le;
  M ← registry w;
  (* {...el.elements, [element.id]: Object.assign(element, el.elements[element.id])} *)
  stale ← entry (objs w) M (id e);
  let lm := fresh (dom (maps w)) in
  Some {| objs := <[le := Elem (assign e stale)]> (objs w);
          maps := <[lm := <[id e := le]> M]> (maps w);
          store := set_elements lm (store w) |}.

(** [appendElement(element, parentId)] *)
Definition appendElement (w : World) (element : loc) (parentId : option string)
  : option World :=
  match truthy parentId with
  | Some p => append_under w element p
  | None => append_top w element
  end.

(** The branch [if (parentId)] of [removeElement].  When [parentId] is
    not a key but names a member of [Object.prototype], [e[parentId]] is
    that built-in: it is truthy and has no [childIds], so [.filter]
    throws and nothing is installed ([None]). *)
Definition remove_under (w : World) (le : loc) (p : string) : option World :=
  e ← element_at (objs w) le;
  (* element.parentId = null *)
  let h1 := <[le := Elem (set_parentId None e)]> (objs w) in
  M ← registry w;
  (* if (e[parentId]) e[parentId].childIds = e[parentId].childIds.filter(c => c !== element.id) *)
  h2 ← match M !! p with
       | Some lp =>
           po ← h1 !! lp;
           Some (<[lp := obj_set_childIds
                           (filter (λ c, c ≠ id e) (obj_childIds po)) po]> h1)
       | None => if proto_member p then None else Some h1
       end;
  (* delete e[element.id]; return { elements: e } *)
  let lm := fresh (dom (maps w)) in
  Some {| objs := h2;
          maps := <[lm := delete (id e) M]> (maps w);
          store := set_elements lm (store w) |}.

(** The [else] branch of [removeElement]: [e = {...el}] copies the state,
    not the mapping, and [delete e.elements[element.id]] edits the
    mapping the state refers to. *)
Definition remove_top (w : World) (le : loc) : option World :=
  e ← element_at (objs w) le;
  M ← registry w;
  Some {| objs := objs w;
          maps := <[elements (store w) := delete (id e) M]> (maps w);
          store := store w |}.

(** [removeElement(element, parentId)] *)
Definition removeElement (w : World) (element : loc) (parentId : option string)
  : option World :=
  match truthy parentId with
  | Some p => remove_under w element p
  | None => remove_top w element
  end.

(** [getElementById(id)]: [elements[id]]. *)
Definition getElementById (w : World) (i : string) : option (option Resolved) :=
  M ← registry w; Some (lookup_prop M i).

(** ** Selection *)

(** [select(element)]: [selectedId] and [selectedKey] are replaced by the
    element's [id] and [key] (a missing [key] is stored as [None]). *)
Definition select (w : World) (element : loc) : option World :=
  e ← element_at (objs w) element;
  Some {| objs := objs w; maps := maps w;
          store := set_selectedKey (key e) (set_selectedId (Some (id e)) (store w)) |}.

(** [selectId(id)]: [if (!id) return], then only [selectedId] is set. *)
Definition selectId (w : World) (i : string) : World :=
  if decide (i = "") then w
  else {| objs := objs w; maps := maps w;
          store := set_selectedId (Some i) (store w) |}.

(** [clearSelection()] *)
Definition clearSelection (w : World) : World :=
  {| objs := objs w; maps := maps w;
     store := set_selectedKey None (set_selectedId None (store w)) |}.

(** [isSelected(arg0)]: [selectedId === arg0.id] *)
Definition isSelected (w : World) (arg0 : loc) : option bool :=
  e ← element_at (objs w) arg0;
  Some (bool_decide (selectedId (store w) = Some (id e))).

(** [selectKey(arg0)]: [if (!arg0) return], then only [selectedKey] is set. *)
Definition selectKey (w : World) (arg0 : option string) : World :=
  match truthy arg0 with
  | None => w
  | Some k => {| objs := objs w; maps := maps w;
                 store := set_selectedKey (Some k) (store w) |}
  end.

(** [get selection()] *)
Definition selection (w : World) : option string * option string :=
  (selectedId (store w), selectedKey (store w)).


(** [get root()] *)
Definition root (w : World) : option (option Resolved) :=
  getElementById w "root".

(** ** Plugins *)

Section Plugins.
(** [Helper] stands for the overlay component a plugin may bring. *)
Context {Helper : Type}.

(** A plugin: its [applicable] predicate and its optional [helper]. *)
Record Plugin := mkPlugin {
  applicable : EditableElement → bool;
  helper : option Helper
}.

(** [addPlugin(plugin)]: [this.plugins.push(plugin)] *)
Definition addPlugin (plugins : list Plugin) (plugin : Plugin) : list Plugin :=
  plugins ++ [plugin].

(** The helpers [Helpers] renders for an element:
    [plugins.filter(p => p.helper && p.applicable(element)).map(p => p.helper)]. *)
Definition Helpers (plugins : list Plugin) (element : EditableElement) : list Helper :=
  omap helper
    (filter (λ p, is_Some (helper p) ∧ applicable p element = true) plugins).
End Plugins.

Arguments Plugin : clear implicits.
Arguments mkPlugin {Helper} applicable helper.

(** ** Deleting an element *)

Section Delete.
(** [element.delete()], the element's own deletion procedure, defined
    in [./EditableElement]; it may change any part of the world and may
    throw ([None]). *)
Variable element_delete : loc → World → option World.

(** [deleteElement(element)]: [element.delete()], then
    [this.clearSelection()]. *)
Definition deleteElement (w : World) (element : loc) : option World :=
  w1 ← element_delete element w;
  Some (clearSelection w1).
End Delete.

(** ** Calls on the editor *)

(** The calls a client of the editor can make on the element tree and
    the selection. *)
Inductive EditorCall :=
  | CallCreateElement (i : string)
  | CallAppendElement (element : loc) (parentId : option string)
  | CallRemoveElement (element : loc) (parentId : option string)
  | CallDeleteElement (element : loc)
  | CallSelect (element : loc)
  | CallSelectId (i : string)
  | CallSelectKey (k : option string)
  | CallClearSelection.

Section Calls.
Variable element_delete : loc → World → option World.

Definition run_call (w : World) (c : EditorCall) : option World :=
  match c with
  | CallCreateElement i => Some (createElement w i).2
  | CallAppendElement le p => appendElement w le p
  | CallRemoveElement le p => removeElement w le p
  | CallDeleteElement le => deleteElement element_delete w le
  | CallSelect le => select w le
  | CallSelectId i => Some (selectId w i)
  | CallSelectKey k => Some (selectKey w k)
  | CallClearSelection => Some (clearSelection w)
  end.

(** A call that is well typed (its element argument is an
    [EditableElement], its deletion procedure returns) and that does
    not append or remove an element whose id is ["root"], nor append or
    remove under a parent id that only [Object.prototype] resolves. *)
Definition spares_root (w : World) (c : EditorCall) : Prop :=
  match c with
  | CallAppendElement le p | CallRemoveElement le p =>
      (∃ e, element_at (objs w) le = Some e ∧ id e ≠ "root") ∧
      parent_resolves w p
  | CallDeleteElement le => is_Some (element_delete le w)
  | CallSelect le => is_Some (element_at (objs w) le)
  | _ => True
  end.

Inductive reachable : World → Prop :=
  | reachable_init : reachable createEditorStore
  | reachable_call w c w' :
      reachable w → spares_root w c → run_call w c = Some w' → reachable w'.
End Calls.

(** * Persistence of diffs *)

Module Persistence.
Section Save.
(** The external client: [client.save(diff)] runs against the state of
    the outside store and either resolves ([None]) or rejects with an
    error. *)
Context {Diff ClientState Err : Type}.
Variable client_save : Diff → ClientState → ClientState * option Err.

(** [async saveDiff(diff) { await this.client.save(diff) }] *)
Definition saveDiff (diff : Diff) (s : ClientState) : ClientState * option Err :=
  client_save diff s.

(** [async save(diffs) { for (let diff of diffs) await this.saveDiff(diff) }]:
    a rejected [await] leaves the loop and rejects the call. *)
Fixpoint save (diffs : list Diff) (s : ClientState) : ClientState * option Err :=
  match diffs with
  | [] => (s, None)
  | diff :: rest =>
      match saveDiff diff s with
      | (s1, None) => save rest s1
      | (s1, Some err) => (s1, Some err)
      end
  end.
End Save.

(** A client that also records every call it receives, in order. *)
Definition logged {Diff ClientState Err : Type}
    (client_save : Diff → ClientState → ClientState * option Err)
    (diff : Diff) (s : ClientState * list Diff)
  : (ClientState * list Diff) * option Err :=
  let '(s1, r) := client_save diff s.1 in ((s1, s.2 ++ [diff]), r).

(** A client that keeps what it persisted and rejects the diff ["bad"]. *)
Definition picky_client (diff : string) (persisted : list string)
  : list string * option string :=
  if decide (diff = "bad") then (persisted, Some "rejected")
  else (persisted ++ [diff], None).

End Persistence.

(** * Panels and settings *)

Module Settings.

(** How a statement ends: normally, or by a thrown [TypeError]; either
    way the state reached so far is kept, since the panel data is edited
    in place. *)
Inductive Completion (A : Type) :=
  | Normal (a : A)
  | Throw (a : A).
Arguments Normal {A} a.
Arguments Throw {A} a.

(** The state a statement leaves behind, however it ended. *)
Definition completion_state {A : Type} (c : Completion A) : A :=
  match c with
  | Normal a => a
  | Throw a => a
  end.

Section Panels.
(** Stored values ([any]) with their conversion to a string, as [+]
    applies it; [Meta] stands for the rest of a data item. *)
Context {Val Meta : Type}.
Variable toString : Val → string.

(** One entry of a panel's data: [{ value, ...metadata }]. *)
Record DataItem := mkItem { value : Val; meta : Meta }.

(** [item.value = v] *)
Definition set_value (v : Val) (item : DataItem) : DataItem :=
  {| value := v; meta := meta item |}.

(** The panel registry ([panelStore]'s [panels], by name) and the data
    of every panel store. *)
Record PanelWorld := mkPanels {
  panels : gmap string loc;
  pdata : gmap loc (gmap string DataItem)
}.

Definition set_data (pw : PanelWorld) (l : loc) (d : gmap string DataItem) : PanelWorld :=
  {| panels := panels pw; pdata := <[l := d]> (pdata pw) |}.

(** Modelled from the spec: [createLevaStore()] ([./controls/createStore],
    not part of this file) makes a new panel store, which holds no
    data yet. *)
Definition createLevaStore : gmap string DataItem := ∅.

(** [getPanel(name)].  [panels] is a plain object: for a name that is
    not a key but names a member of [Object.prototype], [panels[name]]
    is that built-in, which is truthy, and the result is its [.panel],
    that is [undefined]; nothing is created.  [undefined] is returned
    here as a handle to no store: a location outside [pdata]. *)
Definition getPanel (pw : PanelWorld) (name : PanelRef) : loc * PanelWorld :=
  match name with
  | PanelName n =>
      match panels pw !! n with
      | Some l => (l, pw)
      | None =>
          let l := fresh (dom (pdata pw)) in
          if proto_member n then (l, pw)
          else (l, {| panels := <[n := l]> (panels pw);
                      pdata := <[l := createLevaStore]> (pdata pw) |})
      end
  | PanelHandle l => (l, pw)
  end.

(** [panel.get(path)]: the value stored at [path], if any. *)
Definition get (d : gmap string DataItem) (path : string) : option Val :=
  value <$> d !! path.

(** Modelled from the spec: [panel.setValueAtPath(path, value)] of the
    panel store (outside this file) stores the value at an existing
    path; on a missing path it throws. *)
Definition setValueAtPath (d : gmap string DataItem) (path : string) (v : Val)
  : option (gmap string DataItem) :=
  item ← d !! path; Some (<[path := set_value v item]> d).

(** A value inside a string concatenation; [undefined] prints as such. *)
Definition text_of (m : option Val) : string :=
  match m with
  | Some v => toString v
  | None => "undefined"
  end.

(** [`world.` + mode + " settings." + key] *)
Definition settings_key (mode key : string) : string :=
  (("world." +:+ mode) +:+ " settings.") +:+ key.

(** [setSetting(arg0, arg1)]; every [this.settingsPanel] goes through
    [getPanel].  [None]: the panel handle refers to no store (a call on
    [undefined] or on a handle that is no store throws). *)
Definition setSetting (st : EditorStoreStateType) (pw : PanelWorld)
    (arg0 : string) (arg1 : Val) : option PanelWorld :=
  let '(l1, pw1) := getPanel pw (settingsPanel st) in
  d1 ← pdata pw1 !! l1;
  let mode := get d1 "world.mode" in
  let '(l2, pw2) := getPanel pw1 (settingsPanel st) in
  d2 ← pdata pw2 !! l2;
  match d2 !! settings_key (text_of mode) arg0 with
  | Some _ =>
      let '(l3, pw3) := getPanel pw2 (settingsPanel st) in
      d3 ← pdata pw3 !! l3;
      match setValueAtPath d3 (settings_key (text_of mode) arg0) arg1 with
      | Some d3' => Some (set_data pw3 l3 d3')
      | None => None
      end
  | None => Some pw2
  end.

(** The body of the callback of [setSettings]: for each key of
    [values], in enumeration order,
    [data[`world.` + data["world.mode"].value + ` settings.` + key].value = values[key]]. *)
Fixpoint write_settings (values : list (string * Val)) (d : gmap string DataItem)
  : Completion (gmap string DataItem) :=
  match values with
  | [] => Normal d
  | (k, v) :: rest =>
      match d !! "world.mode" with
      | None => Throw d
      | Some m =>
          match d !! settings_key (toString (value m)) k with
          | None => Throw d
          | Some item =>
              write_settings rest
                (<[settings_key (toString (value m)) k := set_value v item]> d)
          end
      end
  end.

(** [setSettings(values)] *)
Definition setSettings (st : EditorStoreStateType) (pw : PanelWorld)
    (values : list (string * Val)) : option (Completion PanelWorld) :=
  let '(l1, pw1) := getPanel pw (settingsPanel st) in
  let '(l2, pw2) := getPanel pw1 (PanelHandle l1) in
  d ← pdata pw2 !! l2;
  Some match write_settings values d with
       | Normal d' => Normal (set_data pw2 l2 d')
       | Throw d' => Throw (set_data pw2 l2 d')
       end.

(** The bulk write as the specification words it: the mode is resolved
    once, when the call begins, and every entry is written under it. *)
Fixpoint write_settings_under (mode : option DataItem)
    (values : list (string * Val)) (d : gmap string DataItem)
  : Completion (gmap string DataItem) :=
  match values with
  | [] => Normal d
  | (k, v) :: rest =>
      match mode with
      | None => Throw d
      | Some m =>
          match d !! settings_key (toString (value m)) k with
          | None => Throw d
          | Some item =>
              write_settings_under mode rest
                (<[settings_key (toString (value m)) k := set_value v item]> d)
          end
      end
  end.

Definition write_settings_once (values : list (string * Val))
    (d : gmap string DataItem) : Completion (gmap string DataItem) :=
  write_settings_under (d !! "world.mode") values d.

(** [getSettings(arg0)]: the data object is fetched first, then the mode
    is read for the key; the result is the [value] of the entry, and
    reading [.value] of a missing entry throws (inner [None]).  Outer
    [None]: the panel handle refers to no store. *)
Definition getSettings (st : EditorStoreStateType) (pw : PanelWorld)
    (arg0 : string) : option (PanelWorld * option Val) :=
  let '(l1, pw1) := getPanel pw (settingsPanel st) in
  d1 ← pdata pw1 !! l1;
  let '(l2, pw2) := getPanel pw1 (settingsPanel st) in
  d2 ← pdata pw2 !! l2;
  Some (pw2, value <$> d1 !! settings_key (text_of (get d2 "world.mode")) arg0).
End Panels.

(** [set settingsPanel(arg0)] *)
Definition set_settingsPanel (arg0 : PanelRef) (s : EditorStoreStateType)
  : EditorStoreStateType :=
  {| selectedId := selectedId s; selectedKey := selectedKey s;
     elements := elements s; settingsPanel := arg0 |}.

Arguments DataItem : clear implicits.
Arguments PanelWorld : clear implicits.
Arguments mkItem {Val Meta} value meta.
Arguments mkPanels {Val Meta} panels pdata.

(** A settings panel named ["scene"] in editor mode with one setting. *)
Definition demo_panels : PanelWorld string unit :=
  mkPanels {[ "scene" := 1%positive ]}
           {[ 1%positive := {[ "world.mode" := mkItem "editor" ();
                               "world.editor settings.grid" := mkItem "on" () ]} ]}.

Definition demo_store : EditorStoreStateType := store createEditorStore.

(** The data of that panel. *)
Definition demo_data : gmap string (DataItem string unit) :=
  {[ "world.mode" := mkItem "editor" ();
     "world.editor settings.grid" := mkItem "on" () ]}.

End Settings.

(** ** Well-formed worlds *)

(** Every reference stored in a mapping points at an object. *)
Definition refs_valid (h : gmap loc JSObject) (M : gmap string loc) : Prop :=
  map_Forall (λ _ l, is_Some (h !! l)) M.

(** An [EditableElement] is registered under its own id. *)
Definition keyed_by_id (h : gmap loc JSObject) (M : gmap string loc) : Prop :=
  map_Forall (λ k l, match h !! l with
                     | Some (Elem e) => id e = k
                     | _ => True
                     end) M.

Definition heap_ok (w : World) : Prop :=
  match registry w with
  | Some M => refs_valid (objs w) M ∧ keyed_by_id (objs w) M
  | None => False
  end.

#[global] Instance refs_valid_dec h M : Decision (refs_valid h M).
Proof. unfold refs_valid. apply _. Defined.

#[global] Instance keyed_by_id_dec h M : Decision (keyed_by_id h M).
Proof.
  unfold keyed_by_id. apply map_Forall_dec.
  intros k l. destruct (h !! l) as [[e|cs]|]; apply _.
Defined.

#[global] Instance heap_ok_dec w : Decision (heap_ok w).
Proof. unfold heap_ok. destruct (registry w); apply _. Defined.

(** The identity an object carries: its [id] property, if it has one. *)
Definition obj_id (o : JSObject) : option string :=
  match o with
  | Elem e => Some (id e)
  | Plain _ => None
  end.

(** Objects are never freed and never change identity. *)
Definition heap_evolves (h h' : gmap loc JSObject) : Prop :=
  ∀ l o, h !! l = Some o → ∃ o', h' !! l = Some o' ∧ obj_id o' = obj_id o.

(** What every structural operation guarantees about the world it
    returns. *)
Record step_ok (w w' : World) : Prop := {
  step_heap_ok : heap_ok w';
  step_evolves : heap_evolves (objs w) (objs w');
  step_selectedId : selectedId (store w') = selectedId (store w);
  step_selectedKey : selectedKey (store w') = selectedKey (store w);
  step_settingsPanel : settingsPanel (store w') = settingsPanel (store w)
}.

(** ** Predicates used by the statements *)

Definition childIds_under (w : World) (k : string) : option (list string) :=
  M ← registry w; l ← M !! k; o ← objs w !! l; Some (obj_childIds o).

(** Number of times [x] occurs in a [childIds] sequence. *)
Definition occurrences (x : string) (l : list string) : nat :=
  length (filter (λ c, c = x) l).

(** What [Object.assign(element, stale)] may copy without touching the
    identity and the parent link of [element]: nothing, the element
    itself, or a bare [{childIds}] object. *)
Definition benign (e : EditableElement) (stale : option JSObject) : Prop :=
  stale = None ∨ stale = Some (Elem e) ∨ ∃ cs, stale = Some (Plain cs).

(** [x] occurs in the [childIds] of the registry entry under [s]. *)
Definition listed_under (w : World) (s x : string) : Prop :=
  ∃ M lp po, registry w = Some M ∧ M !! s = Some lp ∧
             objs w !! lp = Some po ∧ x ∈ obj_childIds po.



(** The registry has an entry under ["root"] whose [parentId] is null. *)
Definition root_entry (w : World) : Prop :=
  ∃ M lr o, registry w = Some M ∧ M !! "root" = Some lr ∧
            objs w !! lr = Some o ∧ obj_parentId o = Some None.

(** ** Small runs *)

Definition w_a : loc * World := createElement createEditorStore "a".

(** The world after [appendElement(a, "root")] on a fresh editor. *)
Definition w_a_appended : option World := appendElement w_a.2 2 (Some "root").

(** The same world, with [a] listed under the root. *)
Definition w_listed : World := default createEditorStore w_a_appended.

(** A fresh editor with two elements made, none appended yet: a child
    [c] (at location 2) and the element [p] (at location 3). *)
Definition w_cp : World :=
  (createElement (createElement createEditorStore "c").2 "p").2.

(** * Facts about the element tree *)

Ltac by_compute := vm_compute; reflexivity.
Ltac by_decide := apply (bool_decide_unpack _); vm_compute; exact I.

Example w_a_loc : w_a.1 = 2%positive.
Proof. reflexivity. Qed.

Example append_a_root :
  (w ← appendElement w_a.2 2 (Some "root"); childIds_under w "root") = Some ["a"].
Proof. vm_compute. reflexivity. Qed.

Example append_a_root_elem :
  (w ← appendElement w_a.2 2 (Some "root"); element_at (objs w) 2)
  = Some {| id := "a"; parentId := Some "root"; childIds := [];
            index := Some "0"; key := None |}.
Proof. vm_compute. reflexivity. Qed.

Example append_remove_a :
  (w ← appendElement w_a.2 2 (Some "root");
   w' ← removeElement w 2 (Some "root");
   c ← childIds_under w' "root"; g ← getElementById w' "a"; Some (c, g))
  = Some ([], None).
Proof. vm_compute. reflexivity. Qed.

Example createEditorStore_ok : heap_ok createEditorStore.
Proof. apply (bool_decide_unpack _). vm_compute. exact I. Qed.

(** ** Basic facts *)

Lemma element_at_Some h l e : element_at h l = Some e ↔ h !! l = Some (Elem e).
Proof.
  unfold element_at. destruct (h !! l) as [[e'|cs]|]; naive_solver.
Qed.

Lemma element_at_insert_eq h l e : element_at (<[l := Elem e]> h) l = Some e.
Proof. unfold element_at. by rewrite lookup_insert_eq. Qed.

Lemma element_at_insert_ne h l l' o :
  l ≠ l' → element_at (<[l := o]> h) l' = element_at h l'.
Proof. intros. unfold element_at. by rewrite lookup_insert_ne. Qed.

Lemma truthy_Some p : p ≠ "" → truthy (Some p) = Some p.
Proof. intros Hp. unfold truthy. by rewrite decide_False. Qed.

Lemma heap_ok_registry w :
  heap_ok w → ∃ M, registry w = Some M ∧ refs_valid (objs w) M ∧ keyed_by_id (objs w) M.
Proof. unfold heap_ok. destruct (registry w) as [M|]; [eauto|done]. Qed.

Lemma keyed_by_id_lookup h M k l e :
  keyed_by_id h M → M !! k = Some l → h !! l = Some (Elem e) → id e = k.
Proof. intros HK HM Hl. specialize (HK k l HM). simpl in HK. by rewrite Hl in HK. Qed.

Lemma occurrences_snoc x l : occurrences x (l ++ [x]) = S (occurrences x l).
Proof.
  unfold occurrences. rewrite filter_app, length_app. simpl.
  rewrite filter_cons_True by done. simpl. lia.
Qed.

Lemma refs_valid_insert h M l o : refs_valid h M → refs_valid (<[l := o]> h) M.
Proof.
  intros HV k l' Hk. specialize (HV k l' Hk). simpl in *.
  destruct (decide (l = l')) as [->|]; [rewrite lookup_insert_eq | rewrite lookup_insert_ne]; eauto.
Qed.

Lemma assign_benign e stale :
  benign e stale →
  id (assign e stale) = id e ∧ parentId (assign e stale) = parentId e.
Proof.
  intros [->|[->|[cs ->]]]; simpl; auto.
Qed.

Lemma assign_self e : assign e (Some (Elem e)) = e.
Proof. destruct e as [i p c [x|] [k|]]; reflexivity. Qed.

Lemma entry_benign h M i le e :
  refs_valid h M →
  h !! le = Some (Elem e) →
  (∀ ls s, M !! i = Some ls → h !! ls = Some (Elem s) → ls = le) →
  ∃ stale, entry h M i = Some stale ∧ benign e stale.
Proof.
  intros HV He Hst. unfold entry.
  destruct (M !! i) as [ls|] eqn:Hi; [|exists None; split; [done|by left]].
  destruct (HV i ls Hi) as [o Ho]. simpl in *. rewrite Ho. simpl.
  exists (Some o). split; [done|].
  destruct o as [s|cs]; [|right; right; eauto].
  assert (ls = le) as -> by eauto. right; left. congruence.
Qed.

(** C1 (amended).  For an element [e] and a truthy parent id [p] that is
    a key of the registry: after [appendElement(e, p)] the entry for [p]
    has the former [childIds] followed by [e.id], so [e.id] occurs once
    more than before (exactly once when it was absent); [e.parentId] is
    [p] and [e.index] is the string of the parent's [childIds] length
    minus one, provided the registry holds no other [EditableElement]
    under [e.id] (such a stale entry is merged over [e]). *)
Theorem appendElement_existing_parent w le e p M lp po :
  p ≠ "" →
  heap_ok w →
  element_at (objs w) le = Some e →
  registry w = Some M →
  M !! p = Some lp →
  objs w !! lp = Some po →
  (∀ ls s, M !! id e = Some ls → objs w !! ls = Some (Elem s) → ls = le) →
  ∃ w' M' po' e',
    appendElement w le (Some p) = Some w' ∧
    registry w' = Some M' ∧ M' !! p = Some lp ∧ objs w' !! lp = Some po' ∧
    obj_childIds po' = obj_childIds po ++ [id e] ∧
    occurrences (id e) (obj_childIds po') = S (occurrences (id e) (obj_childIds po)) ∧
    element_at (objs w') le = Some e' ∧ id e' = id e ∧ parentId e' = Some p ∧
    index e' = Some (pretty (Z.of_nat (length (obj_childIds po')) - 1)%Z).
Proof.
  intros Hp Hok He HM Hlp Hpo Hstale.
  destruct (heap_ok_registry w Hok) as (M0 & HM0 & Hrefs & Hkey).
  assert (M0 = M) as -> by congruence. clear HM0.
  apply element_at_Some in He.
  unfold appendElement. rewrite truthy_Some by done.
  unfold append_under. rewrite (proj2 (element_at_Some _ _ _) He). simpl.
  rewrite HM. simpl. rewrite Hlp.
  destruct (decide (lp = le)) as [->|Hne].
  - (* the element is its own parent *)
    assert (po = Elem e) as -> by congruence.
    assert (id e = p) as Hid by eauto using keyed_by_id_lookup. subst p.
    rewrite lookup_insert_eq. simpl.
    rewrite insert_insert_eq. rewrite element_at_insert_eq. simpl.
    unfold entry. rewrite Hlp. rewrite lookup_insert_eq. simpl.
    rewrite insert_insert_eq, lookup_insert_eq. simpl.
    rewrite insert_insert_eq.
    eexists _, _, _, _. split; [reflexivity|]. simpl.
    unfold registry. simpl. rewrite lookup_insert_eq.
    split; [reflexivity|]. rewrite !lookup_insert_eq.
    split; [reflexivity|]. split; [reflexivity|]. simpl.
    split; [reflexivity|]. split; [apply occurrences_snoc|].
    rewrite element_at_insert_eq. done.
  - rewrite lookup_insert_ne by done. rewrite Hpo. simpl.
    rewrite element_at_insert_ne by done. rewrite element_at_insert_eq. simpl.
    set (e2 := set_parentId (Some p) e).
    set (po' := obj_set_childIds (obj_childIds po ++ [id e]) po).
    set (h2 := <[lp:=po']> (<[le:=Elem e2]> (objs w))).
    destruct (entry_benign h2 M (id e) le e2) as (stale & -> & Hben).
    { by do 2 apply refs_valid_insert. }
    { unfold h2. rewrite lookup_insert_ne by done. by rewrite lookup_insert_eq. }
    { intros ls s Hls Hs. unfold h2 in Hs.
      destruct (decide (ls = lp)) as [->|Hn1]; [|rewrite lookup_insert_ne in Hs by done].
      - rewrite lookup_insert_eq in Hs. destruct po as [s0|cs]; [|done]. eauto.
      - destruct (decide (ls = le)) as [->|Hn2]; [done|].
        rewrite lookup_insert_ne in Hs by done. eauto. }
    simpl. destruct (assign_benign e2 stale Hben) as [Hid Hpar].
    assert (h2 !! lp = Some po') as Hh2 by (unfold h2; apply lookup_insert_eq).
    rewrite lookup_insert_ne by done. rewrite Hh2. simpl.
    eexists _, _, _, _. split; [reflexivity|]. simpl.
    unfold registry. simpl. rewrite lookup_insert_eq.
    split; [reflexivity|]. rewrite lookup_insert_eq.
    split; [reflexivity|]. rewrite insert_insert_eq.
    rewrite lookup_insert_ne by done.
    split; [exact Hh2|].
    assert (obj_childIds po' = obj_childIds po ++ [id e]) as Hcs
      by (unfold po'; by destruct po).
    split; [done|]. split; [rewrite Hcs; apply occurrences_snoc|].
    rewrite element_at_insert_eq. split; [reflexivity|]. simpl.
    rewrite Hid, Hpar. done.
Qed.

Lemma keyed_by_id_insert h M l o :
  keyed_by_id h M →
  (∀ k e, M !! k = Some l → o = Elem e → id e = k) →
  keyed_by_id (<[l := o]> h) M.
Proof.
  intros HK Ho k l' Hk. specialize (HK k l' Hk). simpl in *.
  destruct (decide (l = l')) as [->|]; [rewrite lookup_insert_eq | by rewrite lookup_insert_ne].
  destruct o as [e|cs]; eauto.
Qed.

Lemma entry_keyed h M i :
  refs_valid h M → keyed_by_id h M →
  ∃ stale, entry h M i = Some stale ∧ ∀ s, stale = Some (Elem s) → id s = i.
Proof.
  intros HV HK. unfold entry.
  destruct (M !! i) as [ls|] eqn:Hi; [|exists None; split; [done|done]].
  destruct (HV i ls Hi) as [o Ho]. simpl in *. rewrite Ho. simpl.
  exists (Some o). split; [done|]. intros s [= ->].
  eauto using keyed_by_id_lookup.
Qed.

Lemma assign_id e stale :
  (∀ s, stale = Some (Elem s) → id s = id e) → id (assign e stale) = id e.
Proof. destruct stale as [[s|cs]|]; simpl; eauto. Qed.

Lemma obj_set_childIds_Elem cs o e :
  obj_set_childIds cs o = Elem e → ∃ e0, o = Elem e0 ∧ id e = id e0.
Proof. destruct o as [e0|]; [|done]. intros [= <-]. eauto. Qed.

Lemma obj_id_set_childIds cs o : obj_id (obj_set_childIds cs o) = obj_id o.
Proof. by destruct o. Qed.

Lemma obj_parentId_set_childIds cs o :
  obj_parentId (obj_set_childIds cs o) = obj_parentId o.
Proof. by destruct o. Qed.

Lemma heap_evolves_refl h : heap_evolves h h.
Proof. intros l o Hl. eauto. Qed.

Lemma heap_evolves_trans h1 h2 h3 :
  heap_evolves h1 h2 → heap_evolves h2 h3 → heap_evolves h1 h3.
Proof.
  intros H12 H23 l o Hl.
  destruct (H12 l o Hl) as (o2 & Hl2 & Hid2).
  destruct (H23 l o2 Hl2) as (o3 & Hl3 & Hid3).
  exists o3. split; [done|congruence].
Qed.

Lemma heap_evolves_insert h l o' :
  (∀ o, h !! l = Some o → obj_id o' = obj_id o) →
  heap_evolves h (<[l := o']> h).
Proof.
  intros Hid l' o Hl'. destruct (decide (l = l')) as [->|Hne].
  - rewrite lookup_insert_eq. eauto.
  - rewrite lookup_insert_ne by done. eauto.
Qed.

Lemma refs_valid_evolves h h' M :
  heap_evolves h h' → refs_valid h M → refs_valid h' M.
Proof.
  intros Hev HV k l Hk. destruct (HV k l Hk) as [o Ho]. simpl in *.
  destruct (Hev l o Ho) as (o' & Ho' & _). eauto.
Qed.

Lemma keyed_by_id_evolves h h' M :
  heap_evolves h h' → refs_valid h M → keyed_by_id h M → keyed_by_id h' M.
Proof.
  intros Hev HV HK k l Hk. destruct (HV k l Hk) as [o Ho]. simpl in *.
  destruct (Hev l o Ho) as (o' & Ho' & Hid). rewrite Ho'.
  destruct o' as [s'|]; [|done]. destruct o as [s|]; [|done].
  simpl in Hid. injection Hid as ->. eauto using keyed_by_id_lookup.
Qed.

Lemma refs_valid_insert_key h M k l :
  refs_valid h M → is_Some (h !! l) → refs_valid h (<[k := l]> M).
Proof. intros HV Hl. by apply map_Forall_insert_2. Qed.

Lemma keyed_by_id_insert_key h M k l :
  keyed_by_id h M → (∀ s, h !! l = Some (Elem s) → id s = k) →
  keyed_by_id h (<[k := l]> M).
Proof.
  intros HK Hl. apply map_Forall_insert_2; [|done].
  destruct (h !! l) as [[s|]|]; eauto.
Qed.

Lemma refs_valid_delete h M k : refs_valid h M → refs_valid h (delete k M).
Proof. apply map_Forall_delete. Qed.

Lemma keyed_by_id_delete h M k : keyed_by_id h M → keyed_by_id h (delete k M).
Proof. apply map_Forall_delete. Qed.

(** The shape of the world after the [if (parentId)] branch of
    [appendElement]: a new mapping is installed, the element and the
    parent object are updated in place, every other object is left
    alone. *)
Lemma append_under_shape w le e p M :
  refs_valid (objs w) M → keyed_by_id (objs w) M →
  objs w !! le = Some (Elem e) →
  registry w = Some M →
  ∃ lp h' e',
    append_under w le p
    = Some {| objs := h';
              maps := <[fresh (dom (maps w)) := <[p := lp]> (<[id e := le]> M)]> (maps w);
              store := set_elements (fresh (dom (maps w))) (store w) |} ∧
    (M !! p = Some lp ∨ (M !! p = None ∧ lp ∉ dom (objs w))) ∧
    h' !! le = Some (Elem e') ∧ id e' = id e ∧
    is_Some (h' !! lp) ∧
    (∀ s, h' !! lp = Some (Elem s) → id s = p) ∧
    (∀ l, l ≠ le → l ≠ lp → h' !! l = objs w !! l) ∧
    (∀ o, objs w !! lp = Some o →
          ∃ o', h' !! lp = Some o' ∧ obj_id o' = obj_id o ∧
                (lp ≠ le → obj_parentId o' = obj_parentId o)).
Proof.
  intros Hrefs Hkey He HM.
  unfold append_under. rewrite (proj2 (element_at_Some _ _ _) He). simpl.
  rewrite HM. simpl.
  set (e2 := set_parentId (Some p) e).
  set (h1 := <[le:=Elem e2]> (objs w)).
  assert (refs_valid h1 M) as Hrefs1 by by apply refs_valid_insert.
  assert (keyed_by_id h1 M) as Hkey1.
  { apply keyed_by_id_insert; [done|]. intros k s Hk [= <-]. simpl.
    eauto using keyed_by_id_lookup. }
  assert (h1 !! le = Some (Elem e2)) as Hle1 by apply lookup_insert_eq.
  destruct (M !! p) as [lp|] eqn:Hlp.
  - destruct (Hrefs1 p lp Hlp) as [po Hpo]. simpl in Hpo. rewrite Hpo. simpl.
    set (po' := obj_set_childIds (obj_childIds po ++ [id e]) po).
    set (h2 := <[lp:=po']> h1).
    assert (keyed_by_id h2 M) as Hkey2.
    { apply keyed_by_id_insert; [done|]. intros k s Hk Hs.
      apply obj_set_childIds_Elem in Hs as (s0 & -> & ->).
      eauto using keyed_by_id_lookup. }
    assert (∃ e2', h2 !! le = Some (Elem e2') ∧ id e2' = id e) as (e2' & Hle2 & Hid2).
    { unfold h2. destruct (decide (lp = le)) as [->|Hne].
      - rewrite lookup_insert_eq. rewrite Hle1 in Hpo. injection Hpo as <-.
        simpl. eauto.
      - rewrite lookup_insert_ne by done. eauto. }
    rewrite (proj2 (element_at_Some _ _ _) Hle2). simpl. rewrite Hid2.
    destruct (entry_keyed h2 M (id e)) as (stale & -> & Hst);
      [by apply refs_valid_insert|done|]. simpl.
    assert (id (assign e2' stale) = id e) as Hid3.
    { rewrite <- Hid2. apply assign_id. intros s Hs. rewrite Hid2. eauto. }
    set (h3 := <[le:=Elem (assign e2' stale)]> h2).
    assert (∃ po3, h3 !! lp = Some po3 ∧ ∀ s, po3 = Elem s → id s = p) as (po3 & Hpo3 & Hpo3id).
    { unfold h3. destruct (decide (lp = le)) as [->|Hne].
      - rewrite lookup_insert_eq. eexists; split; [done|]. intros s [= <-].
        rewrite Hid3. eapply (keyed_by_id_lookup (objs w)); eauto.
      - rewrite lookup_insert_ne by done. unfold h2. rewrite lookup_insert_eq.
        eexists; split; [done|]. intros s Hs.
        apply obj_set_childIds_Elem in Hs as (s0 & -> & ->).
        eauto using keyed_by_id_lookup. }
    rewrite Hpo3. simpl. rewrite Hid3.
    eexists lp, _, _. split; [reflexivity|]. split; [by left|].
    rewrite lookup_insert_eq. split; [reflexivity|]. simpl. split; [done|].
    unfold h3. rewrite insert_insert_eq.
    destruct (decide (lp = le)) as [->|Hne].
    + rewrite lookup_insert_eq. split; [eauto|]. split.
      * intros s [= <-]. simpl. rewrite Hid3.
        eapply (keyed_by_id_lookup (objs w)); eauto.
      * split.
        { intros l Hl _. rewrite lookup_insert_ne by done.
          unfold h2. rewrite lookup_insert_ne by done.
          unfold h1. by rewrite lookup_insert_ne. }
        intros o Ho. rewrite He in Ho. injection Ho as <-.
        eexists; split; [done|]. simpl. by rewrite Hid3.
    + rewrite lookup_insert_ne by done.
      unfold h3 in Hpo3. rewrite lookup_insert_ne in Hpo3 by done.
      rewrite Hpo3. split; [eauto|]. split; [naive_solver|]. split.
      { intros l Hl Hl'. rewrite lookup_insert_ne by done.
        unfold h2. rewrite lookup_insert_ne by done.
        unfold h1. by rewrite lookup_insert_ne. }
      intros o Ho. eexists; split; [done|].
      unfold h2 in Hpo3. rewrite lookup_insert_eq in Hpo3. injection Hpo3 as <-.
      unfold h1 in Hpo. rewrite lookup_insert_ne in Hpo by done.
      rewrite Ho in Hpo. injection Hpo as ->.
      split; [apply obj_id_set_childIds|]. intros _. apply obj_parentId_set_childIds.
  - simpl.
    set (lp := fresh (dom h1)).
    assert (lp ∉ dom h1) as Hfresh by apply is_fresh.
    assert (lp ≠ le) as Hne.
    { intros ->. apply Hfresh. apply elem_of_dom. eauto. }
    assert (lp ∉ dom (objs w)) as Hfresh0.
    { intros Hin. apply Hfresh. unfold h1. rewrite dom_insert_L. set_solver. }
    set (h2 := <[lp:=Plain [id e]]> h1).
    assert (h2 !! le = Some (Elem e2)) as Hle2
      by (unfold h2; by rewrite lookup_insert_ne).
    rewrite (proj2 (element_at_Some _ _ _) Hle2). simpl.
    destruct (entry_keyed h2 M (id e)) as (stale & -> & Hst).
    { by apply refs_valid_insert. }
    { apply keyed_by_id_insert; [done|]. by intros k s _ [=]. }
    simpl.
    assert (id (assign e2 stale) = id e) as Hid3 by (apply (assign_id e2); eauto).
    assert (h2 !! lp = Some (Plain [id e])) as Hlp2 by apply lookup_insert_eq.
    rewrite lookup_insert_ne by done. rewrite Hlp2.
    simpl. rewrite Hid3.
    eexists lp, _, _. split; [reflexivity|]. split; [by right|].
    rewrite lookup_insert_eq. split; [reflexivity|]. simpl. split; [done|].
    rewrite insert_insert_eq. rewrite lookup_insert_ne by done.
    rewrite Hlp2. split; [eauto|]. split; [done|]. split.
    { intros l Hl Hl'. unfold h2, h1. by rewrite !lookup_insert_ne. }
    intros o Ho. exfalso. apply Hfresh0. apply elem_of_dom. eauto.
Qed.

(** The [else] branch of [appendElement]: a new mapping, the element
    updated in place by the merge. *)
Lemma append_top_shape w le e M :
  refs_valid (objs w) M → keyed_by_id (objs w) M →
  objs w !! le = Some (Elem e) →
  registry w = Some M →
  ∃ e',
    append_top w le
    = Some {| objs := <[le := Elem e']> (objs w);
              maps := <[fresh (dom (maps w)) := <[id e := le]> M]> (maps w);
              store := set_elements (fresh (dom (maps w))) (store w) |} ∧
    id e' = id e.
Proof.
  intros Hrefs Hkey He HM.
  unfold append_top. rewrite (proj2 (element_at_Some _ _ _) He). simpl.
  rewrite HM. simpl.
  destruct (entry_keyed (objs w) M (id e)) as (stale & -> & Hst); [done..|].
  simpl. eexists. split; [reflexivity|]. by apply assign_id.
Qed.

(** The [if (parentId)] branch of [removeElement]: a new mapping without
    the element's key; the element loses its parent link and the parent
    object, when there is one, loses the element's id. *)
Lemma remove_under_shape w le e p M :
  refs_valid (objs w) M →
  objs w !! le = Some (Elem e) →
  registry w = Some M →
  not_inherited M p →
  ∃ h' e',
    remove_under w le p
    = Some {| objs := h';
              maps := <[fresh (dom (maps w)) := delete (id e) M]> (maps w);
              store := set_elements (fresh (dom (maps w))) (store w) |} ∧
    h' !! le = Some (Elem e') ∧ id e' = id e ∧ parentId e' = None ∧
    heap_evolves (objs w) h' ∧
    (∀ lp po', M !! p = Some lp → h' !! lp = Some po' → id e ∉ obj_childIds po') ∧
    (∀ l, l ≠ le → M !! p ≠ Some l → h' !! l = objs w !! l) ∧
    (∀ l o, l ≠ le → objs w !! l = Some o →
            ∃ o', h' !! l = Some o' ∧ obj_parentId o' = obj_parentId o).
Proof.
  intros Hrefs He HM Hown.
  unfold remove_under. rewrite (proj2 (element_at_Some _ _ _) He). simpl.
  rewrite HM. simpl.
  set (e1 := set_parentId None e).
  set (h1 := <[le:=Elem e1]> (objs w)).
  assert (heap_evolves (objs w) h1) as Hev1.
  { apply heap_evolves_insert. intros o Ho. rewrite He in Ho. by injection Ho as <-. }
  assert (h1 !! le = Some (Elem e1)) as Hle1 by apply lookup_insert_eq.
  destruct (M !! p) as [lp|] eqn:Hlp.
  - destruct (Hrefs p lp Hlp) as [po0 Hpo0]. simpl in Hpo0.
    destruct (Hev1 lp po0 Hpo0) as (po & Hpo & _). rewrite Hpo. simpl.
    set (po' := obj_set_childIds (filter (λ c, c ≠ id e) (obj_childIds po)) po).
    assert (id e ∉ obj_childIds po') as Hnotin.
    { unfold po'. destruct po; simpl; rewrite list_elem_of_filter;
        intros [Hc _]; by apply Hc. }
    assert (heap_evolves h1 (<[lp:=po']> h1)) as Hev2.
    { apply heap_evolves_insert. intros o Ho. rewrite Hpo in Ho. injection Ho as <-.
      apply obj_id_set_childIds. }
    destruct (decide (lp = le)) as [->|Hne].
    + rewrite Hle1 in Hpo. injection Hpo as <-.
      eexists _, _. split; [reflexivity|]. rewrite lookup_insert_eq.
      split; [reflexivity|]. split; [done|]. split; [done|].
      split; [by eapply heap_evolves_trans|]. split.
      * intros lp po'' [= <-]. rewrite lookup_insert_eq. by intros [= <-].
      * split.
        { intros l Hl _. rewrite lookup_insert_ne by done.
          unfold h1. by rewrite lookup_insert_ne. }
        intros l o Hl Ho. rewrite lookup_insert_ne by done.
        unfold h1. rewrite lookup_insert_ne by done. eauto.
    + eexists _, _. split; [reflexivity|]. rewrite lookup_insert_ne by done.
      split; [exact Hle1|]. split; [done|]. split; [done|].
      split; [by eapply heap_evolves_trans|]. split.
      * intros lp' po'' [= <-]. rewrite lookup_insert_eq. by intros [= <-].
      * split.
        { intros l Hl Hl'. rewrite lookup_insert_ne by congruence.
          unfold h1. by rewrite lookup_insert_ne. }
        intros l o Hl Ho. destruct (decide (lp = l)) as [->|Hnl].
        -- rewrite lookup_insert_eq. eexists; split; [done|].
           unfold h1 in Hpo. rewrite lookup_insert_ne in Hpo by done.
           rewrite Ho in Hpo. injection Hpo as ->. apply obj_parentId_set_childIds.
        -- rewrite lookup_insert_ne by done.
           unfold h1. rewrite lookup_insert_ne by done. eauto.
  - assert (proto_member p = false) as ->.
    { destruct Hown as [[l Hl]|Hpm]; [congruence|done]. }
    simpl. eexists _, _. split; [reflexivity|].
    split; [exact Hle1|]. split; [done|]. split; [done|]. split; [done|].
    split; [done|]. split.
    { intros l Hl _. unfold h1. by rewrite lookup_insert_ne. }
    intros l o Hl Ho. unfold h1. rewrite lookup_insert_ne by done. eauto.
Qed.

(** The [else] branch of [removeElement]: the current mapping object
    loses the element's key; no object and no state field changes. *)
Lemma remove_top_shape w le e M :
  objs w !! le = Some (Elem e) →
  registry w = Some M →
  remove_top w le
  = Some {| objs := objs w;
            maps := <[elements (store w) := delete (id e) M]> (maps w);
            store := store w |}.
Proof.
  intros He HM. unfold remove_top.
  rewrite (proj2 (element_at_Some _ _ _) He). simpl. by rewrite HM.
Qed.

(** ** The operations keep worlds well formed *)

Lemma heap_ok_intro w M :
  registry w = Some M → refs_valid (objs w) M → keyed_by_id (objs w) M → heap_ok w.
Proof. intros HM ??. unfold heap_ok. by rewrite HM. Qed.

Lemma append_under_ok w le e p :
  heap_ok w → objs w !! le = Some (Elem e) →
  ∃ w' e', append_under w le p = Some w' ∧ step_ok w w' ∧
           objs w' !! le = Some (Elem e') ∧ id e' = id e.
Proof.
  intros Hok He.
  destruct (heap_ok_registry w Hok) as (M & HM & Hrefs & Hkey).
  destruct (append_under_shape w le e p M Hrefs Hkey He HM)
    as (lp & h' & e' & -> & Hlp & Hle & Hid & Hlp' & Hlpid & Hframe & Hsame).
  assert (heap_evolves (objs w) h') as Hev.
  { intros l o Hl. destruct (decide (l = le)) as [->|Hne].
    - rewrite He in Hl. injection Hl as <-. eexists. split; [done|].
      simpl. by rewrite Hid.
    - destruct (decide (l = lp)) as [->|Hne'].
      + destruct (Hsame o Hl) as (o' & ? & ? & _). eauto.
      + rewrite Hframe by done. eauto. }
  eexists _, e'. split; [reflexivity|]. split; [|done].
  split; simpl; [|done..].
  eapply heap_ok_intro.
  - unfold registry. simpl. apply lookup_insert_eq.
  - simpl. apply refs_valid_insert_key; [|done].
    apply refs_valid_insert_key; [|eauto]. by eapply refs_valid_evolves.
  - simpl. apply keyed_by_id_insert_key; [|done].
    apply keyed_by_id_insert_key; [by eapply keyed_by_id_evolves|].
    intros s Hs. congruence.
Qed.

Lemma append_top_ok w le e :
  heap_ok w → objs w !! le = Some (Elem e) →
  ∃ w' e', append_top w le = Some w' ∧ step_ok w w' ∧
           objs w' !! le = Some (Elem e') ∧ id e' = id e.
Proof.
  intros Hok He.
  destruct (heap_ok_registry w Hok) as (M & HM & Hrefs & Hkey).
  destruct (append_top_shape w le e M Hrefs Hkey He HM) as (e' & -> & Hid).
  assert (heap_evolves (objs w) (<[le:=Elem e']> (objs w))) as Hev.
  { apply heap_evolves_insert. intros o Ho. rewrite He in Ho. injection Ho as <-.
    simpl. by rewrite Hid. }
  eexists _, e'. split; [reflexivity|]. simpl. rewrite lookup_insert_eq.
  split; [|done]. split; simpl; [|done..].
  eapply heap_ok_intro.
  - unfold registry. simpl. apply lookup_insert_eq.
  - simpl. apply refs_valid_insert_key; [by eapply refs_valid_evolves|].
    rewrite lookup_insert_eq. eauto.
  - simpl. apply keyed_by_id_insert_key; [by eapply keyed_by_id_evolves|].
    rewrite lookup_insert_eq. by intros s [= <-].
Qed.

Lemma remove_under_ok w le e p :
  heap_ok w → objs w !! le = Some (Elem e) →
  (∀ M, registry w = Some M → not_inherited M p) →
  ∃ w' e', remove_under w le p = Some w' ∧ step_ok w w' ∧
           objs w' !! le = Some (Elem e') ∧ id e' = id e.
Proof.
  intros Hok He Hown.
  destruct (heap_ok_registry w Hok) as (M & HM & Hrefs & Hkey).
  destruct (remove_under_shape w le e p M Hrefs He HM (Hown M HM))
    as (h' & e' & -> & Hle & Hid & _ & Hev & _ & _ & _).
  eexists _, e'. split; [reflexivity|]. split; [|done].
  split; simpl; [|done..].
  eapply heap_ok_intro.
  - unfold registry. simpl. apply lookup_insert_eq.
  - simpl. apply refs_valid_delete. by eapply refs_valid_evolves.
  - simpl. apply keyed_by_id_delete. by eapply keyed_by_id_evolves.
Qed.

Lemma remove_top_ok w le e :
  heap_ok w → objs w !! le = Some (Elem e) →
  ∃ w', remove_top w le = Some w' ∧ step_ok w w' ∧ objs w' = objs w.
Proof.
  intros Hok He.
  destruct (heap_ok_registry w Hok) as (M & HM & Hrefs & Hkey).
  rewrite (remove_top_shape w le e M He HM).
  eexists. split; [reflexivity|]. split; [|done].
  split; simpl; [|apply heap_evolves_refl|done..].
  eapply heap_ok_intro.
  - unfold registry. simpl. apply lookup_insert_eq.
  - simpl. by apply refs_valid_delete.
  - simpl. by apply keyed_by_id_delete.
Qed.

Lemma appendElement_ok w le e p :
  heap_ok w → objs w !! le = Some (Elem e) →
  ∃ w' e', appendElement w le p = Some w' ∧ step_ok w w' ∧
           objs w' !! le = Some (Elem e') ∧ id e' = id e.
Proof.
  intros Hok He. unfold appendElement.
  destruct (truthy p); eauto using append_under_ok, append_top_ok.
Qed.

Lemma removeElement_ok w le e p :
  heap_ok w → objs w !! le = Some (Elem e) →
  parent_resolves w p →
  ∃ w' e', removeElement w le p = Some w' ∧ step_ok w w' ∧
           objs w' !! le = Some (Elem e') ∧ id e' = id e.
Proof.
  intros Hok He Hown. unfold removeElement. destruct (truthy p) as [s|] eqn:Hp.
  - apply remove_under_ok; [done..|]. intros M HM. by apply (Hown M s).
  - destruct (remove_top_ok w le e Hok He) as (w' & -> & Hstep & Hobjs).
    exists w', e. rewrite Hobjs. eauto.
Qed.

(** ** Exact results of the structural operations *)

(** [appendElement] under a registered parent that is not the element
    itself. *)
Lemma append_under_exact w le e p M lp po stale :
  objs w !! le = Some (Elem e) →
  registry w = Some M →
  M !! p = Some lp → lp ≠ le → objs w !! lp = Some po →
  let po' := obj_set_childIds (obj_childIds po ++ [id e]) po in
  let h2 := <[lp := po']> (<[le := Elem (set_parentId (Some p) e)]> (objs w)) in
  let e3 := assign (set_parentId (Some p) e) stale in
  entry h2 M (id e) = Some stale →
  append_under w le p
  = Some {| objs := <[le := Elem (set_index
                                    (Some (pretty (Z.of_nat (length (obj_childIds po')) - 1)%Z))
                                    e3)]> h2;
            maps := <[fresh (dom (maps w)) := <[p := lp]> (<[id e3 := le]> M)]> (maps w);
            store := set_elements (fresh (dom (maps w))) (store w) |}.
Proof.
  intros He HM Hlp Hne Hpo po' h2 e3 Hst.
  unfold append_under. rewrite (proj2 (element_at_Some _ _ _) He). simpl.
  rewrite HM. simpl. rewrite Hlp.
  rewrite lookup_insert_ne by done. rewrite Hpo. simpl.
  rewrite element_at_insert_ne by done. rewrite element_at_insert_eq. simpl.
  fold po'. fold h2. rewrite Hst. simpl. fold e3.
  rewrite lookup_insert_ne by done.
  assert (h2 !! lp = Some po') as -> by apply lookup_insert_eq.
  simpl. by rewrite insert_insert_eq.
Qed.

(** [appendElement] under a parent id the registry does not know. *)
Lemma append_under_exact_new w le e p M stale :
  objs w !! le = Some (Elem e) →
  registry w = Some M →
  M !! p = None →
  let h1 := <[le := Elem (set_parentId (Some p) e)]> (objs w) in
  let lp := fresh (dom h1) in
  let h2 := <[lp := Plain [id e]]> h1 in
  let e3 := assign (set_parentId (Some p) e) stale in
  entry h2 M (id e) = Some stale →
  lp ≠ le ∧ (lp ∉ dom (objs w)) ∧
  append_under w le p
  = Some {| objs := <[le := Elem (set_index (Some "0") e3)]> h2;
            maps := <[fresh (dom (maps w)) := <[p := lp]> (<[id e3 := le]> M)]> (maps w);
            store := set_elements (fresh (dom (maps w))) (store w) |}.
Proof.
  intros He HM Hlp h1 lp h2 e3 Hst.
  assert (lp ∉ dom h1) as Hfresh by apply is_fresh.
  assert (lp ≠ le) as Hne.
  { intros Heq. apply Hfresh. rewrite Heq. apply elem_of_dom.
    unfold h1. rewrite lookup_insert_eq. eauto. }
  split; [done|]. split.
  { intros Hin. apply Hfresh. unfold h1. rewrite dom_insert_L. set_solver. }
  unfold append_under. rewrite (proj2 (element_at_Some _ _ _) He). simpl.
  rewrite HM. simpl. rewrite Hlp. simpl. fold h1. fold lp. fold h2.
  assert (h2 !! le = Some (Elem (set_parentId (Some p) e))) as Hle2.
  { unfold h2. rewrite lookup_insert_ne by done. apply lookup_insert_eq. }
  rewrite (proj2 (element_at_Some _ _ _) Hle2). simpl. rewrite Hst. simpl. fold e3.
  rewrite lookup_insert_ne by done.
  assert (h2 !! lp = Some (Plain [id e])) as -> by apply lookup_insert_eq.
  simpl. by rewrite insert_insert_eq.
Qed.

(** [removeElement] under a registered parent that is not the element
    itself. *)
Lemma remove_under_exact w le e p M lp po :
  objs w !! le = Some (Elem e) →
  registry w = Some M →
  M !! p = Some lp → lp ≠ le → objs w !! lp = Some po →
  remove_under w le p
  = Some {| objs := <[lp := obj_set_childIds
                              (filter (λ c, c ≠ id e) (obj_childIds po)) po]>
                      (<[le := Elem (set_parentId None e)]> (objs w));
            maps := <[fresh (dom (maps w)) := delete (id e) M]> (maps w);
            store := set_elements (fresh (dom (maps w))) (store w) |}.
Proof.
  intros He HM Hlp Hne Hpo.
  unfold remove_under. rewrite (proj2 (element_at_Some _ _ _) He). simpl.
  rewrite HM. simpl. rewrite Hlp.
  rewrite lookup_insert_ne by done. by rewrite Hpo.
Qed.

(** [removeElement] under a parent id the registry does not know. *)
Lemma remove_under_exact_missing w le e p M :
  objs w !! le = Some (Elem e) →
  registry w = Some M →
  M !! p = None → proto_member p = false →
  remove_under w le p
  = Some {| objs := <[le := Elem (set_parentId None e)]> (objs w);
            maps := <[fresh (dom (maps w)) := delete (id e) M]> (maps w);
            store := set_elements (fresh (dom (maps w))) (store w) |}.
Proof.
  intros He HM Hlp Hpm.
  unfold remove_under. rewrite (proj2 (element_at_Some _ _ _) He). simpl.
  rewrite HM. simpl. by rewrite Hlp, Hpm.
Qed.

Lemma obj_set_childIds_twice cs cs' o :
  obj_set_childIds cs (obj_set_childIds cs' o) = obj_set_childIds cs o.
Proof. by destruct o. Qed.

Lemma obj_set_childIds_same o : obj_set_childIds (obj_childIds o) o = o.
Proof. by destruct o as [[]|]. Qed.

Lemma obj_childIds_set cs o : obj_childIds (obj_set_childIds cs o) = cs.
Proof. by destruct o. Qed.

Lemma filter_snoc_absent (x : string) (cs : list string) :
  x ∉ cs → filter (λ c, c ≠ x) (cs ++ [x]) = cs.
Proof.
  intros Hx. rewrite filter_app. rewrite filter_cons_False by naive_solver.
  rewrite filter_nil, app_nil_r.
  induction cs as [|c cs IH]; [done|].
  apply not_elem_of_cons in Hx as [Hc Hx].
  rewrite filter_cons_True by done. by rewrite IH.
Qed.

Lemma entry_total h M i : refs_valid h M → is_Some (entry h M i).
Proof.
  intros HV. unfold entry. destruct (M !! i) as [l|] eqn:Hi; [|eauto].
  destruct (HV i l Hi) as [o Ho]. simpl in Ho. rewrite Ho. simpl. eauto.
Qed.


(** ** Parent ids that resolve in the registry *)


Lemma truthy_Some_inv p s : truthy p = Some s → p = Some s ∧ s ≠ "".
Proof.
  destruct p as [s'|]; [|done]. unfold truthy.
  destruct (decide (s' = "")); [done|]. by intros [= <-].
Qed.

Lemma parent_resolves_key w M s l :
  registry w = Some M → M !! s = Some l → parent_resolves w (Some s).
Proof.
  intros HM Hs M' s' HM' Hs'. apply truthy_Some_inv in Hs' as [[= <-] _].
  assert (M' = M) as -> by congruence. left. eauto.
Qed.

Lemma parent_resolves_plain w s :
  proto_member s = false → parent_resolves w (Some s).
Proof.
  intros Hs M' s' _ Hs'. apply truthy_Some_inv in Hs' as [[= <-] _]. by right.
Qed.

Lemma parent_resolves_falsy w p : truthy p = None → parent_resolves w p.
Proof. intros Hp M s _ Hs. congruence. Qed.

(** ** Append / remove round trip *)


(** ** Concrete runs of append *)

Lemma appendElement_existing_parent_witness :
  ∃ w' M' po' e',
    appendElement w_a.2 2 (Some "root") = Some w' ∧
    registry w' = Some M' ∧ M' !! "root" = Some 1%positive ∧
    objs w' !! 1%positive = Some po' ∧
    obj_childIds po' = obj_childIds (Elem root_element) ++ ["a"] ∧
    occurrences "a" (obj_childIds po')
    = S (occurrences "a" (obj_childIds (Elem root_element))) ∧
    element_at (objs w') 2 = Some e' ∧ id e' = "a" ∧ parentId e' = Some "root" ∧
    index e' = Some (pretty (Z.of_nat (length (obj_childIds po')) - 1)%Z).
Proof.
  apply (appendElement_existing_parent w_a.2 2 (new_EditableElement "a" None)
           "root" {[ "root" := 1%positive ]} 1%positive (Elem root_element)).
  - done.
  - by_decide.
  - by_compute.
  - by_compute.
  - by_compute.
  - by_compute.
  - intros ls s Hls. vm_compute in Hls. discriminate.
Defined.

(** C1 as stated fails: appending an element that is already listed
    under the parent lists it a second time, so its id does not occur
    exactly once. *)
Lemma appendElement_twice_duplicates :
  ∃ w1, w_a_appended = Some w1 ∧ heap_ok w1 ∧
        getElementById w1 "root" = Some (Some (OwnEntry 1%positive)) ∧
        ∃ w2, appendElement w1 2 (Some "root") = Some w2 ∧
              childIds_under w2 "root" = Some ["a"; "a"] ∧
              occurrences "a" ["a"; "a"] ≠ 1.
Proof.
  eexists. split; [by_compute|]. split; [by_decide|]. split; [by_compute|].
  eexists. split; [by_compute|]. split; [by_compute|]. by vm_compute.
Qed.


(** A second element object with the id of a registered one takes over
    the registered element's properties, its parent link included. *)
Example appendElement_merges_stale_entry :
  let (a, w1) := createElement createEditorStore "a" in
  let (a', w2) := createElement w1 "a" in
  (w3 ← appendElement w2 a (Some "x");
   w4 ← appendElement w3 a' (Some "root");
   e ← element_at (objs w4) a';
   Some (parentId e))
  = Some (Some "x").
Proof. by_compute. Qed.

(** ** Copy-on-write of the registry mapping *)





(** The [else] branch of [removeElement] edits the mapping object the
    previous state refers to. *)
Example removeElement_null_parent_edits_mapping :
  ∃ w1 w2, appendElement w_a.2 2 None = Some w1 ∧
           (M ← maps w1 !! elements (store w1); Some (M !! "a")) = Some (Some 2%positive) ∧
           removeElement w1 2 None = Some w2 ∧
           (M ← maps w2 !! elements (store w1); Some (M !! "a")) = Some None.
Proof. do 2 eexists. repeat split; by_compute. Qed.

(** ** Removal and the selection *)

(** C10 (amended).  For a truthy (non-null, non-empty) parent id that is
    a key of the registry or names no member of [Object.prototype],
    [removeElement(e, p)] returns, sets [e.parentId] to null on the
    element object and leaves a registry without the key [e.id], while
    [selectedId] and [selectedKey] stay as they were, so the selection
    may still name the removed id. *)
Theorem removeElement_keeps_selection w le e p M :
  p ≠ "" → heap_ok w → element_at (objs w) le = Some e →
  registry w = Some M → not_inherited M p →
  ∃ w' e' M',
    removeElement w le (Some p) = Some w' ∧
    element_at (objs w') le = Some e' ∧ id e' = id e ∧ parentId e' = None ∧
    registry w' = Some M' ∧ M' !! id e = None ∧
    selectedId (store w') = selectedId (store w) ∧
    selectedKey (store w') = selectedKey (store w).
Proof.
  intros Hp Hok He HM Hown. apply element_at_Some in He.
  destruct (heap_ok_registry w Hok) as (M0 & HM0 & Hrefs & Hkey).
  assert (M0 = M) as -> by congruence.
  unfold removeElement. rewrite truthy_Some by done.
  destruct (remove_under_shape w le e p M Hrefs He HM Hown)
    as (h' & e' & -> & Hle & Hid & Hpar & _).
  eexists _, e', (delete (id e) M). split; [done|]. simpl.
  split; [by apply element_at_Some|]. split; [done|]. split; [done|].
  split; [apply lookup_insert_eq|]. split; [apply lookup_delete_eq|done].
Qed.

Lemma removeElement_keeps_selection_witness :
  ∃ w' e' M',
    removeElement w_a.2 2 (Some "root") = Some w' ∧
    element_at (objs w') 2 = Some e' ∧ id e' = "a" ∧ parentId e' = None ∧
    registry w' = Some M' ∧ M' !! "a" = None ∧
    selectedId (store w') = selectedId (store w_a.2) ∧
    selectedKey (store w') = selectedKey (store w_a.2).
Proof.
  apply (removeElement_keeps_selection w_a.2 2 (new_EditableElement "a" None) "root"
           {[ "root" := 1%positive ]}).
  - done.
  - by_decide.
  - by_compute.
  - by_compute.
  - left. eexists. by_compute.
Defined.

(** C10 as stated fails for the non-null parent id [""]: the guard
    [if (parentId)] is false, the [else] branch runs and the element
    keeps its parent link. *)
Lemma removeElement_empty_parent_keeps_link :
  ∃ w1 w2 e2,
    w_a_appended = Some w1 ∧ removeElement w1 2 (Some "") = Some w2 ∧
    element_at (objs w2) 2 = Some e2 ∧ parentId e2 = Some "root" ∧
    parentId e2 ≠ None.
Proof. do 3 eexists. split; [by_compute|]. split; [by_compute|]. split; [by_compute|]. done. Qed.

(** ** Selection by id *)

(** C9 (amended).  [selectId(id)] does nothing for the empty id;
    otherwise it sets [selectedId] to [id] and changes nothing else,
    whether or not [id] is a key of the registry; [getElementById] on an
    id that is not a key returns [undefined] when the id names no member
    of [Object.prototype], and the inherited member when it names one. *)
Theorem selectId_spec w i :
  (i = "" → selectId w i = w) ∧
  (i ≠ "" →
     selectedId (store (selectId w i)) = Some i ∧
     selectedKey (store (selectId w i)) = selectedKey (store w) ∧
     elements (store (selectId w i)) = elements (store w) ∧
     settingsPanel (store (selectId w i)) = settingsPanel (store w) ∧
     objs (selectId w i) = objs w ∧ maps (selectId w i) = maps w) ∧
  (∀ M, registry w = Some M → M !! i = None →
        (proto_member i = false →
         getElementById (selectId w i) i = Some None) ∧
        (proto_member i = true →
         getElementById (selectId w i) i = Some (Some (Inherited i)))).
Proof.
  assert (registry (selectId w i) = registry w) as Hreg.
  { unfold selectId. by destruct (decide (i = "")). }
  split; [|split].
  - unfold selectId. by destruct (decide (i = "")).
  - unfold selectId. by destruct (decide (i = "")).
  - intros M HM Hi. unfold getElementById, lookup_prop. rewrite Hreg, HM. simpl.
    rewrite Hi. split; by intros ->.
Qed.

Lemma selectId_spec_witness :
  selectedId (store (selectId createEditorStore "ghost")) = Some "ghost" ∧
  selectedKey (store (selectId createEditorStore "ghost")) = None ∧
  getElementById (selectId createEditorStore "ghost") "ghost" = Some None.
Proof.
  destruct (selectId_spec createEditorStore "ghost") as (_ & Hset & Hget).
  destruct Hset as (Hid & Hkey & _); [done|].
  split; [exact Hid|]. split; [exact Hkey|].
  destruct (Hget {[ "root" := 1%positive ]}) as [Hplain _]; [by_compute..|].
  apply Hplain. by_compute.
Defined.

(** C9 as stated fails for an id that names a member of
    [Object.prototype]: ["constructor"] is not a key of the registry of
    a fresh editor, yet after [selectId("constructor")] the lookup
    [getElementById("constructor")] returns the inherited built-in, not
    [undefined]. *)
Lemma selectId_inherited_id_resolves :
  ∃ M, registry createEditorStore = Some M ∧ M !! "constructor" = None ∧
       selectedId (store (selectId createEditorStore "constructor"))
       = Some "constructor" ∧
       getElementById (selectId createEditorStore "constructor") "constructor"
       = Some (Some (Inherited "constructor")) ∧
       getElementById (selectId createEditorStore "constructor") "constructor"
       ≠ Some None.
Proof.
  exists {[ "root" := 1%positive ]}.
  split; [by_compute|]. split; [by_compute|]. split; [by_compute|].
  split; [by_compute|]. by vm_compute.
Qed.

(** ** Deleting an element *)

Lemma clearSelection_isSelected w le e :
  element_at (objs w) le = Some e → isSelected (clearSelection w) le = Some false.
Proof. intros He. unfold isSelected. simpl. by rewrite He. Qed.

(** C6.  Once the element's own deletion procedure has returned,
    [deleteElement] clears the selection: [selectedId] and [selectedKey]
    are both null, whatever was selected before. *)
Theorem deleteElement_clears_selection
    (element_delete : loc → World → option World) w le w1 :
  element_delete le w = Some w1 →
  ∃ w', deleteElement element_delete w le = Some w' ∧
        selectedId (store w') = None ∧ selectedKey (store w') = None ∧
        objs w' = objs w1 ∧ maps w' = maps w1 ∧
        elements (store w') = elements (store w1).
Proof.
  intros Hd. unfold deleteElement. rewrite Hd. simpl. eexists. split; [done|]. done.
Qed.

Lemma deleteElement_clears_selection_witness :
  ∃ w', deleteElement (λ _ w, Some w) (selectId createEditorStore "root") 1 = Some w' ∧
        selectedId (store w') = None ∧ selectedKey (store w') = None ∧
        objs w' = objs (selectId createEditorStore "root") ∧
        maps w' = maps (selectId createEditorStore "root") ∧
        elements (store w') = elements (store (selectId createEditorStore "root")).
Proof.
  apply (deleteElement_clears_selection (λ _ w, Some w)
           (selectId createEditorStore "root") 1 (selectId createEditorStore "root")).
  reflexivity.
Defined.

(** ** The root entry *)

Lemma root_entry_not_element w M le e :
  keyed_by_id (objs w) M → objs w !! le = Some (Elem e) → id e ≠ "root" →
  ∀ lr, M !! "root" = Some lr → lr ≠ le.
Proof.
  intros Hkey He Hid lr Hlr ->. apply Hid. eauto using keyed_by_id_lookup.
Qed.

Lemma appendElement_root_entry w le e p w' :
  heap_ok w → root_entry w → objs w !! le = Some (Elem e) → id e ≠ "root" →
  appendElement w le p = Some w' → root_entry w'.
Proof.
  intros Hok (M & lr & o & HM & Hlr & Ho & Hpar) He Hid.
  destruct (heap_ok_registry w Hok) as (M0 & HM0 & Hrefs & Hkey).
  assert (M0 = M) as -> by congruence.
  assert (lr ≠ le) as Hne by eauto using root_entry_not_element.
  unfold appendElement. destruct (truthy p) as [s|].
  - destruct (append_under_shape w le e s M Hrefs Hkey He HM)
      as (lp & h' & e' & -> & Hlp & _ & _ & _ & _ & Hframe & Hsame).
    intros [= <-].
    assert (∃ o', h' !! lr = Some o' ∧ obj_parentId o' = Some None) as (o' & Ho' & Hpar').
    { destruct (decide (lr = lp)) as [->|Hne'].
      - destruct (Hsame o Ho) as (o' & Ho' & _ & Hp'). exists o'.
        split; [done|]. rewrite Hp' by done. done.
      - rewrite Hframe by done. eauto. }
    exists (<[s:=lp]> (<[id e:=le]> M)), lr, o'.
    split; [apply lookup_insert_eq|]. split; [|done].
    destruct (decide (s = "root")) as [->|Hs].
    + rewrite lookup_insert_eq. destruct Hlp as [Hlp|[Hlp _]]; congruence.
    + rewrite lookup_insert_ne by done. by rewrite lookup_insert_ne.
  - destruct (append_top_shape w le e M Hrefs Hkey He HM) as (e' & -> & _).
    intros [= <-]. exists (<[id e:=le]> M), lr, o.
    split; [apply lookup_insert_eq|]. simpl.
    split; [by rewrite lookup_insert_ne|]. by rewrite lookup_insert_ne.
Qed.

Lemma removeElement_root_entry w le e p w' :
  heap_ok w → root_entry w → objs w !! le = Some (Elem e) → id e ≠ "root" →
  parent_resolves w p →
  removeElement w le p = Some w' → root_entry w'.
Proof.
  intros Hok (M & lr & o & HM & Hlr & Ho & Hpar) He Hid Hres.
  destruct (heap_ok_registry w Hok) as (M0 & HM0 & Hrefs & Hkey).
  assert (M0 = M) as -> by congruence.
  assert (lr ≠ le) as Hne by eauto using root_entry_not_element.
  unfold removeElement. destruct (truthy p) as [s|] eqn:Hs.
  - destruct (remove_under_shape w le e s M Hrefs He HM (Hres M s HM Hs))
      as (h' & e' & -> & _ & _ & _ & _ & _ & _ & Hothers).
    intros [= <-]. destruct (Hothers lr o Hne Ho) as (o' & Ho' & Hpar').
    exists (delete (id e) M), lr, o'.
    split; [apply lookup_insert_eq|]. simpl.
    split; [by rewrite lookup_delete_ne|]. split; [done|congruence].
  - rewrite (remove_top_shape w le e M He HM). intros [= <-].
    exists (delete (id e) M), lr, o.
    split; [apply lookup_insert_eq|]. simpl.
    split; [by rewrite lookup_delete_ne|]. done.
Qed.

Lemma createElement_ok w i : heap_ok w → heap_ok (createElement w i).2.
Proof.
  intros Hok. destruct (heap_ok_registry w Hok) as (M & HM & Hrefs & Hkey).
  assert (heap_evolves (objs w) (objs (createElement w i).2)) as Hev.
  { apply heap_evolves_insert. intros o Ho. exfalso.
    apply (is_fresh (dom (objs w))). apply elem_of_dom. eauto. }
  apply (heap_ok_intro _ M); [done|..].
  - by eapply refs_valid_evolves.
  - by eapply keyed_by_id_evolves.
Qed.

Lemma createElement_root_entry w i : root_entry w → root_entry (createElement w i).2.
Proof.
  intros (M & lr & o & HM & Hlr & Ho & Hpar). exists M, lr, o.
  split; [done|]. split; [done|]. split; [|done]. simpl.
  rewrite lookup_insert_ne; [done|]. intros <-.
  apply (is_fresh (dom (objs w))). apply elem_of_dom. eauto.
Qed.

Lemma heap_ok_same w w' :
  objs w' = objs w → maps w' = maps w → elements (store w') = elements (store w) →
  heap_ok w → heap_ok w'.
Proof. unfold heap_ok, registry. by intros -> -> ->. Qed.

Lemma root_entry_same w w' :
  objs w' = objs w → maps w' = maps w → elements (store w') = elements (store w) →
  root_entry w → root_entry w'.
Proof. unfold root_entry, registry. by intros -> -> ->. Qed.

Lemma selectId_same w i :
  objs (selectId w i) = objs w ∧ maps (selectId w i) = maps w ∧
  elements (store (selectId w i)) = elements (store w).
Proof. unfold selectId. by destruct (decide (i = "")). Qed.

Lemma selectKey_same w k :
  objs (selectKey w k) = objs w ∧ maps (selectKey w k) = maps w ∧
  elements (store (selectKey w k)) = elements (store w).
Proof. unfold selectKey. by destruct (truthy k). Qed.

Lemma select_same w le w' :
  select w le = Some w' →
  objs w' = objs w ∧ maps w' = maps w ∧ elements (store w') = elements (store w).
Proof.
  unfold select. destruct (element_at (objs w) le); [|done]. by intros [= <-].
Qed.

Section CallsFacts.
Variable element_delete : loc → World → option World.
Hypothesis element_delete_ok :
  ∀ le w w1, heap_ok w → root_entry w → element_delete le w = Some w1 →
             heap_ok w1 ∧ root_entry w1.

Lemma run_call_preserves w c w' :
  heap_ok w → root_entry w → spares_root element_delete w c →
  run_call element_delete w c = Some w' →
  heap_ok w' ∧ root_entry w'.
Proof using element_delete_ok.
  intros Hok Hroot Hc Hrun. destruct c as [i|le p|le p|le|le|i|k|]; simpl in *.
  - injection Hrun as <-.
    split; [exact (createElement_ok w i Hok)|exact (createElement_root_entry w i Hroot)].
  - destruct Hc as ((e & He & Hid) & _). apply element_at_Some in He.
    split; [|by eapply appendElement_root_entry].
    destruct (appendElement_ok w le e p Hok He) as (w1 & _ & Hw1 & Hstep & _).
    rewrite Hw1 in Hrun. injection Hrun as <-. apply Hstep.
  - destruct Hc as ((e & He & Hid) & Hres). apply element_at_Some in He.
    split; [|by eapply removeElement_root_entry].
    destruct (removeElement_ok w le e p Hok He Hres) as (w1 & _ & Hw1 & Hstep & _).
    rewrite Hw1 in Hrun. injection Hrun as <-. apply Hstep.
  - unfold deleteElement in Hrun.
    destruct (element_delete le w) as [w1|] eqn:Hd; [|done].
    injection Hrun as <-.
    destruct (element_delete_ok le w w1 Hok Hroot Hd) as [Hok1 Hroot1].
    split; [by apply (heap_ok_same w1)|by apply (root_entry_same w1)].
  - destruct (select_same w le w' Hrun) as (? & ? & ?).
    split; [by apply (heap_ok_same w)|by apply (root_entry_same w)].
  - injection Hrun as <-. destruct (selectId_same w i) as (? & ? & ?).
    split; [by apply (heap_ok_same w)|by apply (root_entry_same w)].
  - injection Hrun as <-. destruct (selectKey_same w k) as (? & ? & ?).
    split; [by apply (heap_ok_same w)|by apply (root_entry_same w)].
  - injection Hrun as <-.
    split; [by apply (heap_ok_same w)|by apply (root_entry_same w)].
Qed.

Lemma run_call_returns w c :
  heap_ok w → spares_root element_delete w c →
  is_Some (run_call element_delete w c).
Proof.
  intros Hok Hc. destruct c as [i|le p|le p|le|le|i|k|]; simpl in *; eauto.
  - destruct Hc as ((e & He & _) & _). apply element_at_Some in He.
    destruct (appendElement_ok w le e p Hok He) as (w1 & _ & -> & _). eauto.
  - destruct Hc as ((e & He & _) & Hres). apply element_at_Some in He.
    destruct (removeElement_ok w le e p Hok He Hres) as (w1 & _ & -> & _). eauto.
  - unfold deleteElement. destruct Hc as [w1 ->]. simpl. eauto.
  - unfold select. destruct Hc as [e ->]. simpl. eauto.
Qed.

Lemma reachable_ok w :
  reachable element_delete w → heap_ok w ∧ root_entry w.
Proof using element_delete_ok.
  induction 1 as [|w c w' _ [IHok IHroot] Hc Hrun].
  - split; [exact createEditorStore_ok|].
    exists {[ "root" := 1%positive ]}, 1%positive, (Elem root_element).
    repeat split; by_compute.
  - by eapply run_call_preserves.
Qed.
End CallsFacts.

(** C5 (amended).  The registry has an entry under ["root"] with a null
    [parentId] in the initial state and after every sequence of calls to
    [createElement], [appendElement], [removeElement], [deleteElement]
    and the selection operations, as long as no [appendElement] or
    [removeElement] is given an element whose id is ["root"] or a parent
    id that only [Object.prototype] resolves (a truthy id that is not a
    key of the registry and names a built-in such as ["toString"]), and
    the elements' own deletion procedure keeps the entry; every such
    call returns. *)
Theorem root_entry_invariant
    (element_delete : loc → World → option World) w :
  (∀ le w w1, heap_ok w → root_entry w → element_delete le w = Some w1 →
              heap_ok w1 ∧ root_entry w1) →
  reachable element_delete w →
  root_entry w ∧
  ∀ c, spares_root element_delete w c →
       ∃ w', run_call element_delete w c = Some w' ∧ root_entry w'.
Proof.
  intros Hdel Hreach.
  destruct (reachable_ok element_delete Hdel w Hreach) as [Hok Hroot].
  split; [done|]. intros c Hc.
  destruct (run_call_returns element_delete w c Hok Hc) as [w' Hrun].
  exists w'. split; [done|].
  by destruct (run_call_preserves element_delete Hdel w c w' Hok Hroot Hc Hrun).
Qed.

Lemma root_entry_invariant_witness :
  root_entry w_a.2 ∧
  ∀ c, spares_root (λ _ w, Some w) w_a.2 c →
       ∃ w', run_call (λ _ w, Some w) w_a.2 c = Some w' ∧ root_entry w'.
Proof.
  apply (root_entry_invariant (λ _ w, Some w) w_a.2).
  - intros le w w1 Hok Hroot [= <-]. done.
  - apply (reachable_call _ createEditorStore (CallCreateElement "a")).
    + apply reachable_init.
    + exact I.
    + reflexivity.
Defined.

(** C5 as stated fails: [removeElement(root, null)] removes the root
    entry. *)
Lemma removeElement_root_drops_root_entry :
  ∃ w', removeElement createEditorStore 1 None = Some w' ∧
        getElementById w' "root" = Some None ∧ ¬ root_entry w'.
Proof.
  eexists. split; [by_compute|]. split; [by_compute|].
  intros (M & lr & o & HM & Hlr & _).
  vm_compute in HM. injection HM as <-. vm_compute in Hlr. discriminate.
Qed.

(** ** More on the element tree *)

(** X8.  For an element that is not registered and not listed under the
    parent, [appendElement(e, p)] followed by [removeElement(e, p)]
    undoes itself: the registry maps the same keys to the same objects
    as before, the parent object and every other object are exactly as
    they were; only the element keeps a null [parentId] and the [index]
    it was given. *)
Theorem append_remove_restores_registry w le e p M lp po :
  p ≠ "" →
  element_at (objs w) le = Some e →
  registry w = Some M →
  M !! p = Some lp → lp ≠ le → objs w !! lp = Some po →
  M !! id e = None →
  id e ∉ obj_childIds po →
  ∃ w1 w2,
    appendElement w le (Some p) = Some w1 ∧
    removeElement w1 le (Some p) = Some w2 ∧
    registry w2 = Some M ∧
    (∀ l, l ≠ le → objs w2 !! l = objs w !! l) ∧
    element_at (objs w2) le
    = Some (set_parentId None
              (set_index (Some (pretty (Z.of_nat (length (obj_childIds po))))) e)) ∧
    selection w2 = selection w.
Proof.
  intros Hp He HM Hlp Hne Hpo Hid Hnotin. apply element_at_Some in He.
  unfold appendElement, removeElement. rewrite truthy_Some by done.
  set (po' := obj_set_childIds (obj_childIds po ++ [id e]) po).
  set (e2 := set_parentId (Some p) e).
  set (h2 := <[lp := po']> (<[le := Elem e2]> (objs w))).
  assert (entry h2 M (id e) = Some None) as Hst by (unfold entry; by rewrite Hid).
  rewrite (append_under_exact w le e p M lp po None He HM Hlp Hne Hpo Hst).
  fold po' e2 h2. simpl.
  set (e4 := set_index (Some (pretty (Z.of_nat (length (obj_childIds po')) - 1)%Z)) e2).
  set (M1 := <[p:=lp]> (<[id e:=le]> M)).
  set (w1 := {| objs := <[le:=Elem e4]> h2;
                maps := <[fresh (dom (maps w)):=M1]> (maps w);
                store := set_elements (fresh (dom (maps w))) (store w) |}).
  assert (id e ≠ p) as Hidp by congruence.
  assert (objs w1 !! le = Some (Elem e4)) as He1 by apply lookup_insert_eq.
  assert (registry w1 = Some M1) as HM1 by apply lookup_insert_eq.
  assert (M1 !! p = Some lp) as Hlp1 by apply lookup_insert_eq.
  assert (objs w1 !! lp = Some po') as Hpo1.
  { simpl. rewrite lookup_insert_ne by done. apply lookup_insert_eq. }
  exists w1. eexists. split; [done|].
  split; [exact (remove_under_exact w1 le e4 p M1 lp po' He1 HM1 Hlp1 Hne Hpo1)|].
  assert (obj_childIds po' = obj_childIds po ++ [id e]) as Hcs
    by apply obj_childIds_set.
  split; [|split; [|split]].
  - unfold registry. simpl. rewrite lookup_insert_eq. f_equal.
    apply map_eq. intros k. unfold M1.
    destruct (decide (k = id e)) as [->|Hk]; [by rewrite lookup_delete_eq|].
    rewrite lookup_delete_ne by done.
    destruct (decide (k = p)) as [->|Hk']; [by rewrite lookup_insert_eq|].
    by rewrite !lookup_insert_ne.
  - intros l Hl. simpl. change (id e4) with (id e). rewrite Hcs.
    rewrite filter_snoc_absent by done.
    unfold po'. rewrite obj_set_childIds_twice, obj_set_childIds_same.
    destruct (decide (l = lp)) as [->|Hl'].
    + by rewrite lookup_insert_eq.
    + rewrite !lookup_insert_ne by done. unfold h2.
      by rewrite !lookup_insert_ne.
  - simpl. rewrite element_at_insert_ne by done. rewrite element_at_insert_eq.
    f_equal. unfold e4, e2. rewrite Hcs, length_app. simpl.
    replace (Z.of_nat (length (obj_childIds po) + 1) - 1)%Z
      with (Z.of_nat (length (obj_childIds po))) by lia.
    done.
  - done.
Qed.

Lemma append_remove_restores_registry_witness :
  ∃ w1 w2,
    appendElement w_a.2 2 (Some "root") = Some w1 ∧
    removeElement w1 2 (Some "root") = Some w2 ∧
    registry w2 = Some {[ "root" := 1%positive ]} ∧
    (∀ l, l ≠ 2%positive → objs w2 !! l = objs w_a.2 !! l) ∧
    element_at (objs w2) 2
    = Some (set_parentId None
              (set_index (Some (pretty (Z.of_nat (length (obj_childIds (Elem root_element))))))
                 (new_EditableElement "a" None))) ∧
    selection w2 = selection w_a.2.
Proof.
  apply (append_remove_restores_registry w_a.2 2 (new_EditableElement "a" None)
           "root" {[ "root" := 1%positive ]} 1%positive (Elem root_element)).
  - done.
  - by_compute.
  - by_compute.
  - by_compute.
  - done.
  - by_compute.
  - by_compute.
  - vm_compute. apply not_elem_of_nil.
Defined.

(** X9.  Removing an element whose parent id is not a key of the
    registry and names no member of [Object.prototype] still
    unregisters it: the element loses its parent link, the new registry
    is the old one without the key [e.id], and no other object and no
    other key changes. *)
Theorem removeElement_missing_parent w le e p M :
  p ≠ "" →
  element_at (objs w) le = Some e →
  registry w = Some M →
  M !! p = None → proto_member p = false →
  ∃ w',
    removeElement w le (Some p) = Some w' ∧
    element_at (objs w') le = Some (set_parentId None e) ∧
    (∀ l, l ≠ le → objs w' !! l = objs w !! l) ∧
    registry w' = Some (delete (id e) M) ∧
    selection w' = selection w.
Proof.
  intros Hp He HM Hlp Hpm. apply element_at_Some in He.
  unfold removeElement. rewrite truthy_Some by done.
  rewrite (remove_under_exact_missing w le e p M He HM Hlp Hpm).
  eexists. split; [done|]. simpl.
  split; [apply element_at_insert_eq|].
  split; [by intros l Hl; rewrite lookup_insert_ne|].
  split; [apply lookup_insert_eq|done].
Qed.

Lemma removeElement_missing_parent_witness :
  ∃ w',
    removeElement w_a.2 2 (Some "gone") = Some w' ∧
    element_at (objs w') 2 = Some (set_parentId None (new_EditableElement "a" None)) ∧
    (∀ l, l ≠ 2%positive → objs w' !! l = objs w_a.2 !! l) ∧
    registry w' = Some (delete "a" ({[ "root" := 1%positive ]} : gmap string loc)) ∧
    selection w' = selection w_a.2.
Proof.
  apply (removeElement_missing_parent w_a.2 2 (new_EditableElement "a" None)
           "gone" {[ "root" := 1%positive ]}).
  - done.
  - by_compute.
  - by_compute.
  - by_compute.
  - by_compute.
Defined.

(** X10.  [removeElement(e, p)] with a registered parent changes two
    objects only: in the parent's [childIds] every occurrence of [e.id]
    is dropped and the other ids keep their order, and the element loses
    its parent link; every other object is untouched, and the new
    registry is the old one without the key [e.id]. *)
Theorem removeElement_filters_siblings w le e p M lp po :
  p ≠ "" →
  element_at (objs w) le = Some e →
  registry w = Some M →
  M !! p = Some lp → objs w !! lp = Some po →
  ∃ w' po',
    removeElement w le (Some p) = Some w' ∧
    objs w' !! lp = Some po' ∧
    obj_childIds po' = filter (λ c, c ≠ id e) (obj_childIds po) ∧
    (∀ l, l ≠ le → l ≠ lp → objs w' !! l = objs w !! l) ∧
    registry w' = Some (delete (id e) M).
Proof.
  intros Hp He HM Hlp Hpo. apply element_at_Some in He.
  unfold removeElement. rewrite truthy_Some by done.
  destruct (decide (lp = le)) as [->|Hne].
  - assert (po = Elem e) as -> by congruence.
    unfold remove_under. rewrite (proj2 (element_at_Some _ _ _) He). simpl.
    rewrite HM. simpl. rewrite Hlp. rewrite lookup_insert_eq. simpl.
    eexists _, _. split; [done|]. simpl. rewrite lookup_insert_eq.
    split; [done|]. split; [done|]. split.
    + intros l Hl _. by rewrite !lookup_insert_ne.
    + apply lookup_insert_eq.
  - rewrite (remove_under_exact w le e p M lp po He HM Hlp Hne Hpo).
    eexists _, _. split; [done|]. simpl. rewrite lookup_insert_eq.
    split; [done|]. split; [apply obj_childIds_set|]. split.
    + intros l Hl Hl'. by rewrite !lookup_insert_ne.
    + apply lookup_insert_eq.
Qed.

Lemma removeElement_filters_siblings_witness :
  ∃ w' po',
    removeElement w_a.2 2 (Some "root") = Some w' ∧
    objs w' !! 1%positive = Some po' ∧
    obj_childIds po' = filter (λ c, c ≠ "a") (obj_childIds (Elem root_element)) ∧
    (∀ l, l ≠ 2%positive → l ≠ 1%positive → objs w' !! l = objs w_a.2 !! l) ∧
    registry w' = Some (delete "a" ({[ "root" := 1%positive ]} : gmap string loc)).
Proof.
  apply (removeElement_filters_siblings w_a.2 2 (new_EditableElement "a" None)
           "root" {[ "root" := 1%positive ]} 1%positive (Elem root_element)).
  - done.
  - by_compute.
  - by_compute.
  - by_compute.
  - by_compute.
Defined.

(** What [appendElement] does to the objects other than the element:
    the parent's [childIds] grows at the end, nothing else moves. *)
Lemma appendElement_others w le e p l o :
  heap_ok w → objs w !! le = Some (Elem e) →
  l ≠ le → objs w !! l = Some o →
  ∃ w' o',
    appendElement w le p = Some w' ∧ objs w' !! l = Some o' ∧
    (o' = o ∨ o' = obj_set_childIds (obj_childIds o ++ [id e]) o).
Proof.
  intros Hok He Hl Ho.
  destruct (heap_ok_registry w Hok) as (M & HM & Hrefs & Hkey).
  unfold appendElement. destruct (truthy p) as [s|].
  - destruct (append_under_shape w le e s M Hrefs Hkey He HM)
      as (lp & h' & e' & Happ & Hlp & _ & _ & _ & _ & Hframe & _).
    destruct (decide (l = lp)) as [->|Hne].
    + destruct Hlp as [Hlp|[_ Hfresh]].
      * set (h2 := <[lp := obj_set_childIds (obj_childIds o ++ [id e]) o]>
                     (<[le := Elem (set_parentId (Some s) e)]> (objs w))).
        destruct (entry_total h2 M (id e)) as [stale Hst].
        { by do 2 apply refs_valid_insert. }
        rewrite (append_under_exact w le e s M lp o stale He HM Hlp Hl Ho Hst).
        eexists _, _. split; [done|]. simpl.
        rewrite lookup_insert_ne by done. rewrite lookup_insert_eq.
        split; [done|]. by right.
      * exfalso. apply Hfresh. apply elem_of_dom. eauto.
    + rewrite Happ. eexists _, o. split; [done|]. simpl.
      rewrite Hframe by done. split; [done|]. by left.
  - destruct (append_top_shape w le e M Hrefs Hkey He HM) as (e' & -> & _).
    eexists _, o. split; [done|]. simpl. rewrite lookup_insert_ne by done.
    split; [done|]. by left.
Qed.

(** X11.  [appendElement] never detaches: an id listed under a parent
    [p1] is still listed under [p1] after [appendElement(e, p2)], for
    every parent id [p2]; in particular an element appended under a new
    parent stays listed under the old one. *)
Theorem appendElement_never_unlists w le e p1 p2 x :
  heap_ok w → element_at (objs w) le = Some e →
  p1 ≠ id e →
  listed_under w p1 x →
  ∃ w', appendElement w le p2 = Some w' ∧ listed_under w' p1 x.
Proof.
  intros Hok He Hp1 (M & l1 & o & HM & Hl1 & Ho & Hx). apply element_at_Some in He.
  destruct (heap_ok_registry w Hok) as (M0 & HM0 & Hrefs & Hkey).
  assert (M0 = M) as -> by congruence.
  assert (l1 ≠ le) as Hne.
  { intros ->. apply Hp1. symmetry. eauto using keyed_by_id_lookup. }
  destruct (appendElement_others w le e p2 l1 o Hok He Hne Ho)
    as (w' & o' & Happ & Ho' & Hcs).
  exists w'. split; [done|].
  assert (x ∈ obj_childIds o') as Hx'.
  { destruct Hcs as [->| ->]; [done|].
    rewrite obj_childIds_set. apply elem_of_app. by left. }
  unfold appendElement in Happ. destruct (truthy p2) as [s|].
  - destruct (append_under_shape w le e s M Hrefs Hkey He HM)
      as (lp & h' & e' & Happ' & Hlp & _).
    rewrite Happ' in Happ. injection Happ as <-.
    exists (<[s:=lp]> (<[id e:=le]> M)), l1, o'.
    split; [apply lookup_insert_eq|]. split; [|done].
    destruct (decide (p1 = s)) as [->|Hs].
    + rewrite lookup_insert_eq. destruct Hlp as [Hlp|[Hlp _]]; congruence.
    + rewrite lookup_insert_ne by done. by rewrite lookup_insert_ne.
  - destruct (append_top_shape w le e M Hrefs Hkey He HM) as (e' & Happ' & _).
    rewrite Happ' in Happ. injection Happ as <-.
    exists (<[id e:=le]> M), l1, o'.
    split; [apply lookup_insert_eq|]. split; [|done].
    by rewrite lookup_insert_ne.
Qed.

Lemma entry_Some h M i l o :
  M !! i = Some l → h !! l = Some o → entry h M i = Some (Some o).
Proof. intros Hi Hl. unfold entry. rewrite Hi, Hl. done. Qed.

(** X12.  Children may be appended before their parent.  Appending [c]
    under an id [p] that is not a key of the registry and names no
    member of [Object.prototype] registers a bare object
    [{childIds: [c.id]}] under [p]; when the element whose id is [p] is
    appended afterwards (under any parent id other than its own), it
    takes the place of that object under [p] and its [childIds] becomes
    [[c.id]]. *)
Theorem parent_adopts_placeholder w lc c lpar par p q M :
  heap_ok w → registry w = Some M →
  p ≠ "" → M !! p = None → proto_member p = false →
  element_at (objs w) lc = Some c →
  element_at (objs w) lpar = Some par → id par = p → lc ≠ lpar →
  truthy q ≠ Some p →
  ∃ w1 lph w2 par',
    appendElement w lc (Some p) = Some w1 ∧
    getElementById w1 p = Some (Some (OwnEntry lph)) ∧
    objs w1 !! lph = Some (Plain [id c]) ∧
    appendElement w1 lpar q = Some w2 ∧
    getElementById w2 p = Some (Some (OwnEntry lpar)) ∧
    element_at (objs w2) lpar = Some par' ∧
    id par' = p ∧ childIds par' = [id c].
Proof.
  intros Hok HM Hp Hnone _ Hc Hpar Hidpar Hne Hq.
  apply element_at_Some in Hc. apply element_at_Some in Hpar.
  destruct (heap_ok_registry w Hok) as (M0 & HM0 & Hrefs & Hkey).
  assert (M0 = M) as -> by congruence. clear HM0.
  (* the child *)
  set (h1 := <[lc := Elem (set_parentId (Some p) c)]> (objs w)).
  set (lph := fresh (dom h1)).
  set (h2 := <[lph := Plain [id c]]> h1).
  destruct (entry_total h2 M (id c)) as [stale Hst].
  { by do 2 apply refs_valid_insert. }
  destruct (append_under_exact_new w lc c p M stale Hc HM Hnone Hst)
    as (Hlph & Hfresh & Happ1).
  fold h1 lph h2 in Hlph, Hfresh, Happ1.
  set (c3 := assign (set_parentId (Some p) c) stale) in *.
  set (M1 := <[p:=lph]> (<[id c3:=lc]> M)) in *.
  set (w1 := {| objs := <[lc:=Elem (set_index (Some "0") c3)]> h2;
                maps := <[fresh (dom (maps w)):=M1]> (maps w);
                store := set_elements (fresh (dom (maps w))) (store w) |}) in *.
  assert (heap_ok w1) as Hok1.
  { destruct (append_under_ok w lc c p Hok Hc) as (w1' & _ & Happ1' & Hstep & _).
    rewrite Happ1 in Happ1'. injection Happ1' as <-. apply Hstep. }
  destruct (heap_ok_registry w1 Hok1) as (M1' & HM1' & Hrefs1 & Hkey1).
  assert (registry w1 = Some M1) as HM1 by apply lookup_insert_eq.
  assert (M1' = M1) as -> by congruence. clear HM1'.
  assert (lpar ≠ lph) as Hparph.
  { intros Heq. apply Hfresh. rewrite <- Heq. apply elem_of_dom. eauto. }
  assert (objs w1 !! lph = Some (Plain [id c])) as Hph1.
  { simpl. rewrite lookup_insert_ne by done. apply lookup_insert_eq. }
  assert (objs w1 !! lpar = Some (Elem par)) as Hpar1.
  { simpl. rewrite lookup_insert_ne by done. unfold h2.
    rewrite lookup_insert_ne by done. unfold h1. by rewrite lookup_insert_ne. }
  assert (M1 !! p = Some lph) as Hp1 by apply lookup_insert_eq.
  exists w1, lph.
  assert (appendElement w lc (Some p) = Some w1) as Ha1.
  { unfold appendElement. by rewrite truthy_Some. }
  assert (getElementById w1 p = Some (Some (OwnEntry lph))) as Hg1.
  { unfold getElementById, lookup_prop. rewrite HM1. simpl. by rewrite Hp1. }
  (* the parent *)
  unfold appendElement at 2. destruct (truthy q) as [s|] eqn:Htq.
  - assert (s ≠ p) as Hsp by congruence.
    set (par2 := set_parentId (Some s) par).
    destruct (M1 !! s) as [lq|] eqn:Hlq.
    + assert (lq ≠ lpar) as Hlqpar.
      { intros ->. apply Hsp. symmetry. rewrite <- Hidpar.
        eauto using keyed_by_id_lookup. }
      assert (lq ≠ lph) as Hlqph.
      { intros ->. unfold M1 in Hlq. rewrite lookup_insert_ne in Hlq by done.
        destruct (decide (id c3 = s)) as [<-|Hcs].
        - rewrite lookup_insert_eq in Hlq. congruence.
        - rewrite lookup_insert_ne in Hlq by done.
          apply Hfresh. apply elem_of_dom. exact (Hrefs s lph Hlq). }
      destruct (Hrefs1 s lq Hlq) as [poq Hpoq]. simpl in Hpoq.
      set (poq' := obj_set_childIds (obj_childIds poq ++ [id par]) poq).
      set (hq := <[lq := poq']> (<[lpar := Elem par2]> (objs w1))).
      assert (entry hq M1 (id par) = Some (Some (Plain [id c]))) as Hstq.
      { rewrite Hidpar. apply (entry_Some _ _ _ lph); [done|].
        unfold hq. rewrite !lookup_insert_ne by done. exact Hph1. }
      pose proof (append_under_exact w1 lpar par s M1 lq poq _
                    Hpar1 HM1 Hlq Hlqpar Hpoq Hstq) as Happ2.
      eexists _, _. split; [done|]. split; [done|]. split; [done|].
      split; [exact Happ2|]. simpl.
      unfold getElementById, lookup_prop, registry. simpl.
      rewrite lookup_insert_eq. simpl.
      rewrite lookup_insert_ne by done. rewrite Hidpar, lookup_insert_eq.
      split; [done|]. rewrite element_at_insert_eq. done.
    + set (hq1 := <[lpar := Elem par2]> (objs w1)).
      set (lq := fresh (dom hq1)).
      set (hq := <[lq := Plain [id par]]> hq1).
      assert (lq ≠ lph) as Hlqph.
      { intros Heq. apply (is_fresh (dom hq1)). fold lq. rewrite Heq.
        apply elem_of_dom. unfold hq1. rewrite lookup_insert_ne by done. eauto. }
      assert (entry hq M1 (id par) = Some (Some (Plain [id c]))) as Hstq.
      { rewrite Hidpar. apply (entry_Some _ _ _ lph); [done|].
        unfold hq. rewrite lookup_insert_ne by done.
        unfold hq1. rewrite lookup_insert_ne by done. exact Hph1. }
      destruct (append_under_exact_new w1 lpar par s M1 _ Hpar1 HM1 Hlq Hstq)
        as (_ & _ & Happ2).
      eexists _, _. split; [done|]. split; [done|]. split; [done|].
      split; [exact Happ2|]. simpl.
      unfold getElementById, lookup_prop, registry. simpl.
      rewrite lookup_insert_eq. simpl.
      rewrite lookup_insert_ne by done. rewrite Hidpar, lookup_insert_eq.
      split; [done|]. rewrite element_at_insert_eq. done.
  - assert (entry (objs w1) M1 (id par) = Some (Some (Plain [id c]))) as Hstt.
    { rewrite Hidpar. exact (entry_Some _ _ _ lph (Plain [id c]) Hp1 Hph1). }
    unfold append_top. rewrite (proj2 (element_at_Some _ _ _) Hpar1). simpl.
    rewrite HM1. simpl. simpl in Hstt. rewrite Hstt. simpl.
    eexists _, _. split; [done|]. split; [done|]. split; [done|].
    split; [done|]. simpl.
    unfold getElementById, lookup_prop, registry. simpl.
    rewrite !lookup_insert_eq. simpl.
    rewrite Hidpar, lookup_insert_eq.
    split; [done|]. rewrite element_at_insert_eq. done.
Qed.

Lemma appendElement_never_unlists_witness :
  ∃ w', appendElement w_listed 2 (Some "x") = Some w' ∧ listed_under w' "root" "a".
Proof.
  apply (appendElement_never_unlists w_listed 2
           {| id := "a"; parentId := Some "root"; childIds := [];
              index := Some "0"; key := None |} "root" (Some "x") "a").
  - by_decide.
  - by_compute.
  - done.
  - do 3 eexists. split; [by_compute|]. split; [by_compute|].
    split; [by_compute|]. vm_compute. apply list_elem_of_here.
Defined.

Lemma parent_adopts_placeholder_witness :
  ∃ w1 lph w2 par',
    appendElement w_cp 2 (Some "p") = Some w1 ∧
    getElementById w1 "p" = Some (Some (OwnEntry lph)) ∧
    objs w1 !! lph = Some (Plain ["c"]) ∧
    appendElement w1 3 (Some "root") = Some w2 ∧
    getElementById w2 "p" = Some (Some (OwnEntry 3%positive)) ∧
    element_at (objs w2) 3 = Some par' ∧
    id par' = "p" ∧ childIds par' = ["c"].
Proof.
  apply (parent_adopts_placeholder w_cp 2 (new_EditableElement "c" None)
           3 (new_EditableElement "p" None) "p" (Some "root")
           {[ "root" := 1%positive ]}).
  - by_decide.
  - by_compute.
  - done.
  - by_compute.
  - by_compute.
  - by_compute.
  - by_compute.
  - done.
  - done.
  - vm_compute. discriminate.
Defined.

(** X13.  With a falsy parent id, [appendElement] of an element that is
    not registered only adds the key [e.id]: no object changes, so the
    element keeps the [parentId] and [index] it had (they are not
    reset), and the selection is untouched. *)
Theorem appendElement_top_registers_only w le e p M :
  truthy p = None →
  element_at (objs w) le = Some e →
  registry w = Some M →
  M !! id e = None →
  ∃ w',
    appendElement w le p = Some w' ∧
    objs w' = objs w ∧
    registry w' = Some (<[id e := le]> M) ∧
    selection w' = selection w.
Proof.
  intros Hp He HM Hid. apply element_at_Some in He.
  unfold appendElement. rewrite Hp.
  unfold append_top. rewrite (proj2 (element_at_Some _ _ _) He). simpl.
  rewrite HM. simpl. unfold entry. rewrite Hid. simpl.
  eexists. split; [done|]. simpl. split; [by apply insert_id|].
  split; [apply lookup_insert_eq|done].
Qed.

Lemma appendElement_top_registers_only_witness :
  ∃ w',
    appendElement w_a.2 2 (Some "") = Some w' ∧
    objs w' = objs w_a.2 ∧
    registry w' = Some (<["a" := 2%positive]> {[ "root" := 1%positive ]}) ∧
    selection w' = selection w_a.2.
Proof.
  apply (appendElement_top_registers_only w_a.2 2 (new_EditableElement "a" None)
           (Some "") {[ "root" := 1%positive ]}); by_compute.
Defined.

(** X14.  The structural operations keep the registry well formed: after
    [appendElement] (with any parent id) or [removeElement] (with a
    parent id that is falsy, a key of the registry, or no name of a
    member of [Object.prototype]) on a well-formed world, every
    reference in the registry still points at an object and every
    [EditableElement] in it is still registered under its own id; both
    calls return. *)
Theorem structural_ops_keep_registry_keyed w le e p :
  heap_ok w → element_at (objs w) le = Some e →
  (∃ w', appendElement w le p = Some w' ∧ heap_ok w') ∧
  (parent_resolves w p → ∃ w', removeElement w le p = Some w' ∧ heap_ok w').
Proof.
  intros Hok He. apply element_at_Some in He. split.
  - destruct (appendElement_ok w le e p Hok He) as (w' & _ & Happ & Hstep & _).
    exists w'. split; [done|apply Hstep].
  - intros Hres.
    destruct (removeElement_ok w le e p Hok He Hres) as (w' & _ & Hrem & Hstep & _).
    exists w'. split; [done|apply Hstep].
Qed.

Lemma structural_ops_keep_registry_keyed_witness :
  (∃ w', appendElement w_a.2 2 (Some "root") = Some w' ∧ heap_ok w') ∧
  (∃ w', removeElement w_a.2 2 (Some "root") = Some w' ∧ heap_ok w').
Proof.
  destruct (structural_ops_keep_registry_keyed w_a.2 2 (new_EditableElement "a" None)
              (Some "root")) as [Happ Hrem].
  - by_decide.
  - by_compute.
  - split; [exact Happ|]. apply Hrem.
    apply (parent_resolves_key _ {[ "root" := 1%positive ]} _ 1%positive); by_compute.
Defined.

(** ** More on the selection *)

(** X15.  [select(e)] replaces the selection by [e]'s id and key,
    whatever was selected; [isSelected] compares ids only, so afterwards
    it answers true for exactly the element objects that carry [e]'s
    id, [e] itself or not. *)
Theorem select_isSelected w le e le' e' :
  element_at (objs w) le = Some e →
  element_at (objs w) le' = Some e' →
  ∃ w', select w le = Some w' ∧
        selection w' = (Some (id e), key e) ∧
        isSelected w' le' = Some (bool_decide (id e' = id e)).
Proof.
  intros He He'. unfold select. rewrite He. simpl.
  eexists. split; [done|]. split; [done|].
  unfold isSelected. simpl. rewrite He'. simpl. f_equal.
  apply bool_decide_ext. split; congruence.
Qed.

Lemma select_isSelected_witness :
  ∃ w', select w_a.2 2 = Some w' ∧
        selection w' = (Some "a", None) ∧
        isSelected w' 1 = Some (bool_decide ("root" = "a")).
Proof.
  apply (select_isSelected w_a.2 2 (new_EditableElement "a" None) 1 root_element);
    by_compute.
Defined.




(** ** Plugins *)

(** X17.  Registering a plugin never disturbs the helpers of the plugins
    registered before it: the helpers rendered for an element after
    [addPlugin(p)] are the former ones, in the same order, followed by
    [p]'s helper exactly when [p] has one and is applicable to the
    element. *)
Theorem Helpers_addPlugin {Helper : Type} (plugins : list (Plugin Helper))
    (p : Plugin Helper) (e : EditableElement) :
  Helpers (addPlugin plugins p) e
  = Helpers plugins e
    ++ match helper p with
       | Some h => if applicable p e then [h] else []
       | None => []
       end.
Proof.
  unfold Helpers, addPlugin. rewrite filter_app, omap_app. f_equal.
  destruct (helper p) as [h|] eqn:Hh.
  - destruct (applicable p e) eqn:Ha.
    + rewrite filter_cons_True by (rewrite Hh, Ha; eauto). simpl. by rewrite Hh.
    + rewrite filter_cons_False; [done|]. rewrite Ha. by intros [_ ?].
  - rewrite filter_cons_False; [done|]. rewrite Hh. intros [[? ?] _]. done.
Qed.

(** * Facts about persistence *)

Module PersistenceFacts.
Import Persistence.

Section SaveFacts.
Context {Diff ClientState Err : Type}.
Variable client_save : Diff → ClientState → ClientState * option Err.

Lemma save_app pre post s :
  save client_save (pre ++ post) s
  = match save client_save pre s with
    | (s1, None) => save client_save post s1
    | (s1, Some err) => (s1, Some err)
    end.
Proof.
  revert s. induction pre as [|d pre IH]; intros s; simpl; [done|].
  unfold saveDiff. destruct (client_save d s) as [s1 [err|]]; [done|]. apply IH.
Qed.

Lemma logged_step d s log :
  logged client_save d (s, log)
  = (((client_save d s).1, log ++ [d]), (client_save d s).2).
Proof. unfold logged. simpl. by destruct (client_save d s). Qed.

(** Recording the calls does not change what [save] does, and the
    record only grows. *)
Lemma save_logged diffs s log :
  ∃ calls,
    save (logged client_save) diffs (s, log)
    = (((save client_save diffs s).1, log ++ calls), (save client_save diffs s).2) ∧
    match (save client_save diffs s).2 with
    | None => calls = diffs
    | Some err =>
        ∃ pre d post s1,
          diffs = pre ++ d :: post ∧ calls = pre ++ [d] ∧
          save client_save pre s = (s1, None) ∧
          client_save d s1 = ((save client_save diffs s).1, Some err)
    end.
Proof.
  revert s log. induction diffs as [|d diffs IH]; intros s log; simpl.
  - exists []. by rewrite app_nil_r.
  - unfold saveDiff. rewrite logged_step.
    destruct (client_save d s) as [s1 [err|]] eqn:Hd; simpl.
    + exists [d]. split; [done|]. exists [], d, diffs, s. by rewrite Hd.
    + destruct (IH s1 (log ++ [d])) as (calls & Heq & Hcalls).
      exists (d :: calls). rewrite Heq, <- app_assoc. split; [done|].
      destruct (save client_save diffs s1).2 as [err|].
      * destruct Hcalls as (pre & d' & post & s2 & -> & -> & Hpre & Hd').
        exists (d :: pre), d', post, s2. simpl. unfold saveDiff. rewrite Hd.
        by rewrite Hpre.
      * by rewrite Hcalls.
Qed.
End SaveFacts.

(** C4.  [save(diffs)] hands the diffs to the client in array order,
    each call starting from the state the previous one left; when the
    call for some diff rejects, the diffs before it have been persisted,
    it is the last call made, and [save] rejects with that error. *)
Theorem save_in_order_fail_fast {Diff ClientState Err : Type}
    (client_save : Diff → ClientState → ClientState * option Err)
    (diffs : list Diff) (s : ClientState) :
  ∃ s' calls result,
    save (logged client_save) diffs (s, []) = ((s', calls), result) ∧
    save client_save diffs s = (s', result) ∧
    match result with
    | None => calls = diffs
    | Some err =>
        ∃ pre d post s1,
          diffs = pre ++ d :: post ∧ calls = pre ++ [d] ∧
          save client_save pre s = (s1, None) ∧
          client_save d s1 = (s', Some err)
    end.
Proof.
  destruct (save_logged client_save diffs s []) as (calls & Heq & Hcalls).
  exists (save client_save diffs s).1, calls, (save client_save diffs s).2.
  split; [done|]. split; [by destruct (save client_save diffs s)|]. done.
Qed.
(** X18.  Saving a concatenation of batches is saving them one after the
    other: [save(a ++ b)] does what [save(a)] does and, when that
    resolved, goes on with [save(b)] from the state it left; when
    [save(a)] rejects nothing of [b] is attempted. *)
Theorem save_batches_compose {Diff ClientState Err : Type}
    (client_save : Diff → ClientState → ClientState * option Err)
    (a b : list Diff) (s : ClientState) :
  save client_save (a ++ b) s
  = match save client_save a s with
    | (s1, None) => save client_save b s1
    | (s1, Some err) => (s1, Some err)
    end.
Proof.
  revert s. induction a as [|d a IH]; intros s; simpl; [done|].
  unfold saveDiff. destruct (client_save d s) as [s1 [err|]]; [done|].
  apply IH.
Qed.

Example save_rejects_second :
  save picky_client ["d1"; "bad"; "d3"] [] = (["d1"], Some "rejected") ∧
  (save (logged picky_client) ["d1"; "bad"; "d3"] ([], [])).1.2 = ["d1"; "bad"].
Proof. split; reflexivity. Qed.
End PersistenceFacts.

(** * Facts about panels and settings *)

Module SettingsFacts.
Import Settings.

Lemma string_length_app (s1 s2 : string) :
  String.length (s1 +:+ s2) = String.length s1 + String.length s2.
Proof. induction s1 as [|a s1 IH]; simpl; [done|]. by rewrite IH. Qed.

(** No settings key is the key of the mode itself. *)
Lemma settings_key_not_mode mode k : settings_key mode k ≠ "world.mode".
Proof.
  unfold settings_key. simpl. intros [= H].
  apply (f_equal String.length) in H. rewrite !string_length_app in H.
  simpl in H. lia.
Qed.

Lemma string_app_inj (s a b : string) : s +:+ a = s +:+ b → a = b.
Proof. induction s as [|c s IH]; simpl; [done|]. intros [= H]. by apply IH. Qed.

Lemma settings_key_inj mode k k' : settings_key mode k = settings_key mode k' → k = k'.
Proof. unfold settings_key. apply string_app_inj. Qed.

Section PanelsFacts.
Context {Val Meta : Type}.
Variable toString : Val → string.
Implicit Types (pw : PanelWorld Val Meta) (d : gmap string (DataItem Val Meta)).

(** Resolving a panel a second time changes nothing. *)
Lemma getPanel_idem pw r l pw1 :
  getPanel pw r = (l, pw1) → getPanel pw1 r = (l, pw1).
Proof.
  destruct r as [n|l']; simpl; [|by intros [= <- <-]].
  destruct (panels pw !! n) as [l0|] eqn:Hn.
  - intros [= <- <-]. by rewrite Hn.
  - destruct (proto_member n) eqn:Hpm.
    + intros [= <- <-]. by rewrite Hn.
    + intros [= <- <-]. simpl. by rewrite lookup_insert_eq.
Qed.

Lemma getPanel_handle pw l : getPanel pw (PanelHandle l) = (l, pw).
Proof. done. Qed.

(** Resolving a panel keeps every store's data; a store made on the way
    is empty. *)
Lemma getPanel_frame pw r l pw1 :
  getPanel pw r = (l, pw1) →
  (∀ l' d, pdata pw !! l' = Some d → pdata pw1 !! l' = Some d) ∧
  (∀ l' d, pdata pw1 !! l' = Some d → pdata pw !! l' = Some d ∨ d = ∅).
Proof.
  destruct r as [n|l0]; simpl; [|by intros [= <- <-]; eauto].
  destruct (panels pw !! n) as [l0|]; [intros [= <- <-]; eauto|].
  destruct (proto_member n); intros [= <- <-]; [eauto|]. simpl. split.
  - intros l' d Hl'. rewrite lookup_insert_ne; [done|]. intros <-.
    apply (is_fresh (dom (pdata pw))). apply elem_of_dom. eauto.
  - intros l' d. destruct (decide (fresh (dom (pdata pw)) = l')) as [<-|Hne].
    + rewrite lookup_insert_eq. intros [= <-]. by right.
    + rewrite lookup_insert_ne by done. eauto.
Qed.

Lemma setSetting_eq st pw k v l pw1 d :
  getPanel pw (settingsPanel st) = (l, pw1) →
  pdata pw1 !! l = Some d →
  setSetting toString st pw k v
  = Some match d !! settings_key (text_of toString (get d "world.mode")) k with
         | Some item =>
             set_data pw1 l
               (<[settings_key (text_of toString (get d "world.mode")) k
                  := set_value v item]> d)
         | None => pw1
         end.
Proof.
  intros Hg Hd. unfold setSetting. rewrite Hg. rewrite Hd. simpl.
  rewrite (getPanel_idem _ _ _ _ Hg). rewrite Hd. simpl.
  destruct (d !! settings_key _ k) as [item|] eqn:Hk; [|done].
  rewrite (getPanel_idem _ _ _ _ Hg). rewrite Hd. simpl.
  unfold setValueAtPath. by rewrite Hk.
Qed.

(** C7.  [setSetting(k, v)] stores [v] under
    ["world.<mode> settings.<k>"] when that key is in the settings
    panel's data, leaving every other entry as it was; when the key is
    absent nothing stored changes; in both cases the data has the same
    keys afterwards and the other panels keep their data. *)
Theorem setSetting_guard st pw k v l pw1 d :
  getPanel pw (settingsPanel st) = (l, pw1) →
  pdata pw1 !! l = Some d →
  let path := settings_key (text_of toString (get d "world.mode")) k in
  ∃ pw' d',
    setSetting toString st pw k v = Some pw' ∧
    panels pw' = panels pw1 ∧
    pdata pw' = <[l := d']> (pdata pw1) ∧
    dom d' = dom d ∧
    (∀ path', path' ≠ path → d' !! path' = d !! path') ∧
    (∀ item, d !! path = Some item → d' !! path = Some (set_value v item)) ∧
    (d !! path = None → d' = d ∧ pw' = pw1) ∧
    (∀ l' d0, l' ≠ l → pdata pw !! l' = Some d0 → pdata pw' !! l' = Some d0).
Proof.
  intros Hg Hd path. rewrite (setSetting_eq st pw k v l pw1 d Hg Hd). fold path.
  destruct (getPanel_frame pw _ l pw1 Hg) as [Hkeep _].
  destruct (d !! path) as [item|] eqn:Hk.
  - exists (set_data pw1 l (<[path:=set_value v item]> d)), (<[path:=set_value v item]> d).
    split; [done|]. split; [done|]. split; [done|]. split.
    { apply dom_insert_lookup_L. eauto. }
    split; [by intros path' Hne; rewrite lookup_insert_ne|].
    split; [intros item' [= <-]; apply lookup_insert_eq|]. split; [done|].
    intros l' d0 Hne Hl'. simpl. rewrite lookup_insert_ne by done. eauto.
  - exists pw1, d. split; [done|]. split; [done|].
    split; [by rewrite insert_id|]. split; [done|]. split; [done|].
    split; [done|]. eauto.
Qed.

(** Reading the mode at every key gives what resolving it once gives. *)
Lemma write_settings_under_mode values d :
  write_settings toString values d
  = write_settings_under toString (d !! "world.mode") values d.
Proof.
  revert d. induction values as [|[k v] values IH]; intros d; simpl; [done|].
  destruct (d !! "world.mode") as [m|] eqn:Hm; [|done].
  destruct (d !! settings_key (toString (value m)) k) as [item|]; [|done].
  rewrite IH. rewrite lookup_insert_ne by apply settings_key_not_mode.
  by rewrite Hm.
Qed.

Lemma set_data_id pw l d : pdata pw !! l = Some d → set_data pw l d = pw.
Proof. intros Hd. destruct pw as [ps pd]. unfold set_data. simpl in *. by rewrite insert_id. Qed.

Lemma set_data_set_data pw l d d' : set_data (set_data pw l d) l d' = set_data pw l d'.
Proof. unfold set_data. simpl. by rewrite insert_insert_eq. Qed.

Lemma getPanel_set_data pw r l pw1 d :
  getPanel pw r = (l, pw) → pdata pw !! l = Some d →
  ∀ d', getPanel (set_data pw l d') r = (l, set_data pw l d').
Proof.
  intros Hg Hd d'. destruct r as [n|l0]; simpl in *; [|by injection Hg as ->].
  destruct (panels pw !! n) as [l0|]; [by injection Hg as ->|].
  exfalso. apply (is_fresh (dom (pdata pw))).
  assert (fresh (dom (pdata pw)) = l) as -> by (by destruct (proto_member n); injection Hg).
  apply elem_of_dom. eauto.
Qed.

(** When every key of [values] has its entry, the bulk write ends
    normally; it keeps the keys and the mode. *)
Lemma write_settings_normal values :
  ∀ d m,
    d !! "world.mode" = Some m →
    (∀ k v, (k, v) ∈ values → is_Some (d !! settings_key (toString (value m)) k)) →
    ∃ d', write_settings toString values d = Normal d' ∧
          dom d' = dom d ∧ d' !! "world.mode" = Some m.
Proof.
  induction values as [|[k v] values IH]; intros d m Hm Hkeys; simpl.
  - by exists d.
  - rewrite Hm. destruct (Hkeys k v) as [item Hk]; [by left|]. rewrite Hk.
    set (path := settings_key (toString (value m)) k) in *.
    set (d1 := <[path:=set_value v item]> d).
    assert (dom d1 = dom d) as Hdom.
    { unfold d1. apply dom_insert_lookup_L. eauto. }
    destruct (IH d1 m) as (d' & Hw & Hdom' & Hm').
    + unfold d1. rewrite lookup_insert_ne by apply settings_key_not_mode. done.
    + intros k' v' Hin. apply elem_of_dom. rewrite Hdom. apply elem_of_dom.
      apply (Hkeys k' v'). by right.
    + exists d'. split; [done|]. split; [congruence|done].
Qed.

Lemma write_settings_under_spec m values :
  ∀ d d',
    write_settings_under toString (Some m) values d = Normal d' →
    (∀ path, (∀ k v, (k, v) ∈ values → path ≠ settings_key (toString (value m)) k) →
             d' !! path = d !! path) ∧
    (NoDup values.*1 →
     ∀ k v, (k, v) ∈ values →
            value <$> d' !! settings_key (toString (value m)) k = Some v).
Proof.
  induction values as [|[k v] values IH]; intros d d'; simpl.
  - intros [= <-]. split; [done|]. intros _ k v Hin. by apply elem_of_nil in Hin.
  - destruct (d !! settings_key (toString (value m)) k) as [item|] eqn:Hk; [|done].
    intros Hw. destruct (IH _ _ Hw) as [Hframe Hwritten]. split.
    + intros path Hpath. rewrite Hframe.
      * rewrite lookup_insert_ne; [done|]. intros <-.
        apply (Hpath k v); [by left|done].
      * intros k' v' Hin. apply (Hpath k' v'). by right.
    + intros Hnd k' v' Hin. apply NoDup_cons in Hnd as [Hnotin Hnd].
      apply elem_of_cons in Hin as [[= -> ->]|Hin]; [|by apply Hwritten].
      rewrite Hframe.
      * by rewrite lookup_insert_eq.
      * intros k' v' Hin Heq. apply settings_key_inj in Heq as <-.
        apply Hnotin. apply list_elem_of_fmap. by exists (k, v').
Qed.
End PanelsFacts.

(** C8 (code bug).  [setSettings] is not the bulk variant of
    [setSetting]: it has no existence guard.  For a key without an
    entry under the active mode, [setSetting(k, v)] skips the write and
    returns with nothing changed, whereas [setSettings] on a mapping
    that starts with that key throws (it assigns to [.value] of
    [undefined]) and writes nothing. *)
Theorem setSettings_missing_guard {Val Meta : Type} (toString : Val → string)
    st (pw : PanelWorld Val Meta) k v post l pw1 d m :
  getPanel pw (settingsPanel st) = (l, pw1) →
  pdata pw1 !! l = Some d →
  d !! "world.mode" = Some m →
  d !! settings_key (toString (value m)) k = None →
  setSetting toString st pw k v = Some pw1 ∧
  setSettings toString st pw ((k, v) :: post) = Some (Throw pw1).
Proof.
  intros Hg Hd Hm Hk. split.
  - rewrite (setSetting_eq toString st pw k v l pw1 d Hg Hd).
    unfold get. rewrite Hm. simpl. by rewrite Hk.
  - unfold setSettings. rewrite Hg. simpl. rewrite Hd. simpl.
    rewrite Hm, Hk. by rewrite set_data_id.
Qed.

Lemma setSetting_guard_witness :
  ∃ pw' d',
    setSetting (λ v, v) demo_store demo_panels "grid" "off" = Some pw' ∧
    pdata pw' !! 1%positive = Some d' ∧
    value <$> d' !! "world.editor settings.grid" = Some "off" ∧
    d' !! "world.mode" = Some (mkItem "editor" ()).
Proof.
  destruct (setSetting_guard (λ v, v) demo_store demo_panels "grid" "off" 1%positive
              demo_panels
              {[ "world.mode" := mkItem "editor" ();
                 "world.editor settings.grid" := mkItem "on" () ]})
    as (pw' & d' & Hset & _ & Hdata & _ & Hothers & Hwritten & _).
  - by_compute.
  - by_compute.
  - exists pw', d'. split; [exact Hset|]. split.
    + rewrite Hdata. apply lookup_insert_eq.
    + split.
      * pose proof (Hwritten (mkItem "on" ()) ltac:(by_compute)) as Hw.
        exact (f_equal (fmap (M := option) value) Hw).
      * etrans; [apply Hothers; vm_compute; discriminate|by_compute].
Defined.

Lemma setSettings_missing_guard_witness :
  setSetting (λ v, v) demo_store demo_panels "fog" "on" = Some demo_panels ∧
  setSettings (λ v, v) demo_store demo_panels [("fog", "on"); ("grid", "off")]
  = Some (Throw demo_panels).
Proof.
  apply (setSettings_missing_guard (λ v, v) demo_store demo_panels "fog" "on"
           [("grid", "off")] 1%positive demo_panels demo_data (mkItem "editor" ()));
    by_compute.
Defined.

(** The same mapping in the other order: the entry before the absent
    key is written and stays written when the call throws. *)
Example setSettings_throws_after_writing :
  ∃ pw' d',
    setSettings (λ v, v) demo_store demo_panels [("grid", "off"); ("fog", "on")]
    = Some (Throw pw') ∧
    pdata pw' !! 1%positive = Some d' ∧
    value <$> d' !! "world.editor settings.grid" = Some "off".
Proof. do 2 eexists. split; [by_compute|]. split; by_compute. Qed.

(** ** More on panels and settings *)

Lemma string_app_inj_r (a b s : string) : a +:+ s = b +:+ s → a = b.
Proof.
  revert b. induction a as [|c a IH]; intros [|c' b] H; simpl in *.
  - done.
  - apply (f_equal String.length) in H.
    rewrite ?string_length_app in H. simpl in H.
    rewrite ?string_length_app in H. lia.
  - apply (f_equal String.length) in H.
    rewrite ?string_length_app in H. simpl in H.
    rewrite ?string_length_app in H. lia.
  - injection H as -> H. f_equal. by apply IH.
Qed.

Lemma settings_key_inj_mode mode mode' k :
  settings_key mode k = settings_key mode' k → mode = mode'.
Proof.
  unfold settings_key. intros H.
  apply string_app_inj_r, string_app_inj_r in H. by apply string_app_inj in H.
Qed.

(** X1.  [getPanel] creates lazily and never clobbers: a registered name
    or a handle is returned with nothing changed; an unknown name that
    names no member of [Object.prototype] gets a new, empty store at a
    location no store had, every other name and every store's data stay
    as they were; an unknown name that names such a member (say
    ["constructor"]) creates nothing and the result is no store; asking
    again gives the same result and changes nothing. *)
Theorem getPanel_lazy {Val Meta : Type} (pw : PanelWorld Val Meta) (r : PanelRef) :
  ∃ l pw1,
    getPanel pw r = (l, pw1) ∧
    getPanel pw1 r = (l, pw1) ∧
    (∀ n l0, panels pw !! n = Some l0 → panels pw1 !! n = Some l0) ∧
    (∀ l' d, pdata pw !! l' = Some d → pdata pw1 !! l' = Some d) ∧
    match r with
    | PanelHandle h => l = h ∧ pw1 = pw
    | PanelName n =>
        match panels pw !! n with
        | Some l0 => l = l0 ∧ pw1 = pw
        | None =>
            if proto_member n
            then pw1 = pw ∧ pdata pw1 !! l = None
            else (l ∉ dom (pdata pw)) ∧ panels pw1 !! n = Some l ∧
                 pdata pw1 !! l = Some ∅
        end
    end.
Proof.
  destruct (getPanel pw r) as [l pw1] eqn:Hg. exists l, pw1.
  split; [done|]. split; [by eapply getPanel_idem|].
  destruct (getPanel_frame pw r l pw1 Hg) as [Hkeep _].
  destruct r as [n|h]; simpl in Hg.
  - destruct (panels pw !! n) as [l0|] eqn:Hn.
    + injection Hg as <- <-. done.
    + destruct (proto_member n).
      * injection Hg as <- <-. split; [done|]. split; [done|]. split; [done|].
        apply not_elem_of_dom. apply is_fresh.
      * injection Hg as <- <-. simpl. split.
        { intros n' l0 Hn'. rewrite lookup_insert_ne; [done|]. congruence. }
        split; [done|]. split; [apply is_fresh|].
        by rewrite !lookup_insert_eq.
  - injection Hg as <- <-. done.
Qed.

(** [getPanel("constructor")] on the demo panels: no panel is made. *)
Example getPanel_constructor :
  (getPanel demo_panels (PanelName "constructor")).2 = demo_panels ∧
  pdata demo_panels !! (getPanel demo_panels (PanelName "constructor")).1 = None ∧
  panels (getPanel demo_panels (PanelName "tools")).2 !! "tools"
  = Some (getPanel demo_panels (PanelName "tools")).1.
Proof. split; [by_compute|]. split; by_compute. Qed.

Section SettingsMore.
Context {Val Meta : Type}.
Variable toString : Val → string.
Implicit Types (pw : PanelWorld Val Meta) (d : gmap string (DataItem Val Meta)).

Lemma getSettings_eq st pw k l pw1 d :
  getPanel pw (settingsPanel st) = (l, pw1) →
  pdata pw1 !! l = Some d →
  getSettings toString st pw k
  = Some (pw1, value <$> d !! settings_key (text_of toString (get d "world.mode")) k).
Proof.
  intros Hg Hd. unfold getSettings. rewrite Hg, Hd. simpl.
  rewrite (getPanel_idem _ _ _ _ Hg). by rewrite Hd.
Qed.

(** X3.  A setting that has no entry under the active mode cannot be
    read and cannot be brought into being by [setSetting]: [getSettings]
    throws before and after the call. *)
Theorem setting_absent_stays_absent st pw k v l pw1 d :
  getPanel pw (settingsPanel st) = (l, pw1) →
  pdata pw1 !! l = Some d →
  d !! settings_key (text_of toString (get d "world.mode")) k = None →
  getSettings toString st pw k = Some (pw1, None) ∧
  ∃ pw', setSetting toString st pw k v = Some pw' ∧
         getSettings toString st pw' k = Some (pw', None).
Proof.
  intros Hg Hd Hk.
  rewrite (getSettings_eq st pw k l pw1 d Hg Hd), Hk. split; [done|].
  rewrite (setSetting_eq toString st pw k v l pw1 d Hg Hd), Hk.
  exists pw1. split; [done|].
  rewrite (getSettings_eq st pw1 k l pw1 d (getPanel_idem pw _ l pw1 Hg) Hd).
  by rewrite Hk.
Qed.

(** X4.  Settings are kept per mode: [setSetting(k, v)] writes under the
    active mode only, so the entry of the same key under any other mode
    is exactly what it was. *)
Theorem setSetting_other_mode_untouched st pw k v l pw1 d mode' :
  getPanel pw (settingsPanel st) = (l, pw1) →
  pdata pw1 !! l = Some d →
  mode' ≠ text_of toString (get d "world.mode") →
  ∃ pw' d',
    setSetting toString st pw k v = Some pw' ∧
    pdata pw' !! l = Some d' ∧
    d' !! settings_key mode' k = d !! settings_key mode' k ∧
    d' !! "world.mode" = d !! "world.mode".
Proof.
  intros Hg Hd Hmode.
  rewrite (setSetting_eq toString st pw k v l pw1 d Hg Hd).
  set (path := settings_key (text_of toString (get d "world.mode")) k).
  destruct (d !! path) as [item|] eqn:Hk.
  - exists (set_data pw1 l (<[path:=set_value v item]> d)), (<[path:=set_value v item]> d).
    split; [done|]. split; [apply lookup_insert_eq|]. split.
    + rewrite lookup_insert_ne; [done|]. intros Heq.
      apply settings_key_inj_mode in Heq. congruence.
    + rewrite lookup_insert_ne; [done|]. apply settings_key_not_mode.
  - exists pw1, d. done.
Qed.

Lemma write_settings_app pre post d :
  write_settings toString (pre ++ post) d
  = match write_settings toString pre d with
    | Normal d' => write_settings toString post d'
    | Throw d' => Throw d'
    end.
Proof.
  revert d. induction pre as [|[k v] pre IH]; intros d; simpl; [done|].
  destruct (d !! "world.mode") as [m|]; [|done].
  destruct (d !! settings_key (toString (value m)) k) as [item|]; [|done].
  apply IH.
Qed.

(** X6.  [setSettings] is not all-or-nothing: when [k] is the first key
    of [values] without an entry under the active mode, the call throws
    and leaves exactly what writing the entries before [k] leaves. *)
Theorem setSettings_stops_at_absent_key st pw pre k v post l pw1 d m :
  getPanel pw (settingsPanel st) = (l, pw1) →
  pdata pw1 !! l = Some d →
  d !! "world.mode" = Some m →
  (∀ k0 v0, (k0, v0) ∈ pre → is_Some (d !! settings_key (toString (value m)) k0)) →
  d !! settings_key (toString (value m)) k = None →
  ∃ pw',
    setSettings toString st pw pre = Some (Normal pw') ∧
    setSettings toString st pw (pre ++ (k, v) :: post) = Some (Throw pw').
Proof.
  intros Hg Hd Hm Hpre Hk.
  destruct (write_settings_normal toString pre d m Hm Hpre)
    as (d' & Hw & Hdom & Hm').
  exists (set_data pw1 l d'). unfold setSettings. rewrite Hg. simpl. rewrite Hd. simpl.
  rewrite Hw. split; [done|].
  rewrite write_settings_app, Hw. simpl. rewrite Hm'.
  assert (d' !! settings_key (toString (value m)) k = None) as ->; [|done].
  apply not_elem_of_dom. rewrite Hdom. by apply not_elem_of_dom.
Qed.

Lemma write_settings_keeps_keys values :
  ∀ d, dom (completion_state (write_settings toString values d)) = dom d ∧
       completion_state (write_settings toString values d) !! "world.mode"
       = d !! "world.mode".
Proof.
  induction values as [|[k v] values IH]; intros d; simpl; [done|].
  destruct (d !! "world.mode") as [m|] eqn:Hm; [|simpl; by rewrite Hm].
  destruct (d !! settings_key (toString (value m)) k) as [item|] eqn:Hk;
    [|simpl; by rewrite Hm].
  destruct (IH (<[settings_key (toString (value m)) k:=set_value v item]> d))
    as [-> ->].
  split.
  - apply dom_insert_lookup_L. eauto.
  - rewrite lookup_insert_ne by apply settings_key_not_mode. done.
Qed.

(** X7.  Whether it returns or throws, [setSettings] never adds or
    removes a key of the settings panel's data and never changes the
    mode entry; the other panels keep their data. *)
Theorem setSettings_keeps_keys st pw values l pw1 d :
  getPanel pw (settingsPanel st) = (l, pw1) →
  pdata pw1 !! l = Some d →
  ∃ c d',
    setSettings toString st pw values = Some c ∧
    completion_state c = set_data pw1 l d' ∧
    dom d' = dom d ∧ d' !! "world.mode" = d !! "world.mode".
Proof.
  intros Hg Hd. unfold setSettings. rewrite Hg. simpl. rewrite Hd. simpl.
  destruct (write_settings_keeps_keys values d) as [Hdom Hmode].
  destruct (write_settings toString values d) as [d'|d']; simpl in *;
    eexists _, d'; done.
Qed.
End SettingsMore.

Lemma setting_absent_stays_absent_witness :
  getSettings (λ v, v) demo_store demo_panels "fog" = Some (demo_panels, None) ∧
  ∃ pw', setSetting (λ v, v) demo_store demo_panels "fog" "on" = Some pw' ∧
         getSettings (λ v, v) demo_store pw' "fog" = Some (pw', None).
Proof.
  apply (setting_absent_stays_absent (λ v, v) demo_store demo_panels "fog" "on"
           1%positive demo_panels demo_data); by_compute.
Defined.

Lemma setSetting_other_mode_untouched_witness :
  ∃ pw' d',
    setSetting (λ v, v) demo_store demo_panels "grid" "off" = Some pw' ∧
    pdata pw' !! 1%positive = Some d' ∧
    d' !! settings_key "play" "grid" = demo_data !! settings_key "play" "grid" ∧
    d' !! "world.mode" = demo_data !! "world.mode".
Proof.
  apply (setSetting_other_mode_untouched (λ v, v) demo_store demo_panels "grid" "off"
           1%positive demo_panels demo_data "play").
  - by_compute.
  - by_compute.
  - vm_compute. discriminate.
Defined.

Lemma setSettings_stops_at_absent_key_witness :
  ∃ pw',
    setSettings (λ v, v) demo_store demo_panels [("grid", "off")] = Some (Normal pw') ∧
    setSettings (λ v, v) demo_store demo_panels
      ([("grid", "off")] ++ ("fog", "on") :: [("grid", "dim")])
    = Some (Throw pw').
Proof.
  apply (setSettings_stops_at_absent_key (λ v, v) demo_store demo_panels
           [("grid", "off")] "fog" "on" [("grid", "dim")]
           1%positive demo_panels demo_data (mkItem "editor" ())).
  - by_compute.
  - by_compute.
  - by_compute.
  - intros k0 v0 Hin. apply list_elem_of_singleton in Hin as [= -> ->].
    eexists. by_compute.
  - by_compute.
Defined.

Lemma setSettings_keeps_keys_witness :
  ∃ c d',
    setSettings (λ v, v) demo_store demo_panels [("grid", "off"); ("fog", "on")]
    = Some c ∧
    completion_state c = set_data demo_panels 1%positive d' ∧
    dom d' = dom demo_data ∧ d' !! "world.mode" = demo_data !! "world.mode".
Proof.
  apply (setSettings_keeps_keys (λ v, v) demo_store demo_panels
           [("grid", "off"); ("fog", "on")] 1%positive demo_panels demo_data);
    by_compute.
Defined.

End SettingsFacts.
